(** * PennyLane-Lightning: kernel dispatch, managed state vector and
    vector-Jacobian products

    A shallow embedding of

    - [gates/DynamicDispatcher.hpp]   (kernel registry and gate dispatch),
    - [simulator/KernelType.hpp]      (kernel identifiers),
    - [lightning_qubit/StateVectorLQubitManaged.hpp] (managed state vector),
    - [algorithms/JacobianProd.hpp]   (vector-Jacobian products),
    - [lightning_tensor/tncuda/MPOTNCuda.hpp] (the checks of the MPO
      constructor),

    followed by the properties established about them.

    Conventions.  A C++ member function that mutates memory and may throw is
    a function from the memory it works on to an [outcome]: it returns, it
    throws (the memory as it was when the exception left the function is
    kept), or its behaviour is undefined (an unchecked access outside a
    [std::vector], the dereference of an end iterator).  [size_t] values are
    natural numbers, and a vector is only as long as [max_size()] and its
    allocator let it be; the floating-point template parameter is an
    abstract type with the operations the code uses. *)

From stdpp Require Import gmap strings list fin_maps.
From Stdlib Require Import ZArith Sorted.

(** ** Outcomes of a call *)

(** The exceptions the embedded code raises. *)
Inductive exn : Type :=
| invalid_argument (what : string)   (* std::invalid_argument *)
| out_of_range                       (* std::out_of_range, from [unordered_map::at] *)
| range_error                        (* a key absent from a constant table *)
| length_error                       (* std::length_error, from [std::vector] *)
| bad_alloc.                         (* std::bad_alloc, from an allocator *)

Inductive outcome (A St : Type) : Type :=
| Returned (a : A) (s : St)
| Thrown (e : exn) (s : St)
| Aborted
| Undefined.
Arguments Returned {A St} a s.
Arguments Thrown {A St} e s.
Arguments Aborted {A St}.
Arguments Undefined {A St}.

(** A computation over a mutable store [St] with result [A]. *)
Definition M (St A : Type) : Type := St → outcome A St.

Definition ret {St A} (a : A) : M St A := λ s, Returned a s.

Definition bind {St A B} (m : M St A) (k : A → M St B) : M St B :=
  λ s, match m s with
       | Returned a s' => k a s'
       | Thrown e s' => Thrown e s'
       | Aborted => Aborted
       | Undefined => Undefined
       end.

Definition throw {St A} (e : exn) : M St A := λ s, Thrown e s.
Definition undefined_behaviour {St A} : M St A := λ _, Undefined.
Definition get {St} : M St St := λ s, Returned s s.
Definition put {St} (s : St) : M St unit := λ _, Returned tt s.

Notation "'do' x <- m ; k" := (bind m (λ x, k))
  (at level 10, x name, m at level 100, k at level 200,
   format "'[v' 'do'  x  <-  m ; '/' k ']'").
Notation "m ;; k" := (bind m (λ _, k))
  (at level 100, k at level 200, right associativity).

(** [v[i]] on a [std::vector]: unchecked, undefined outside the vector. *)
Definition vec_at {St A} (v : list A) (i : nat) : M St A :=
  match v !! i with
  | Some x => ret x
  | None => undefined_behaviour
  end.

(** [for (size_t i = lo; i < lo + n; i++) body(i);] *)
Fixpoint for_loop {St} (lo n : nat) (body : nat → M St unit) : M St unit :=
  match n with
  | 0 => ret tt
  | S n' => body lo ;; for_loop (S lo) n' body
  end.

(** Run a computation on a component of a larger store. *)
Definition zoom {S1 S2 A} (proj : S2 → S1) (upd : S1 → S2 → S2)
    (m : M S1 A) : M S2 A :=
  λ s2, match m (proj s2) with
        | Returned a s1 => Returned a (upd s1 s2)
        | Thrown e s1 => Thrown e (upd s1 s2)
        | Aborted => Aborted
        | Undefined => Undefined
        end.

(** A local object: run [m] on a store of its own, starting from [init],
    and hand back what the store holds when [m] returns. *)
Definition with_local {St L A} (init : L) (m : M L A) : M St L :=
  λ s, match m init with
       | Returned _ l => Returned l s
       | Thrown e _ => Thrown e s
       | Aborted => Aborted
       | Undefined => Undefined
       end.

(** [assert(b)] of <cassert>: nothing when [NDEBUG] is defined, otherwise
    the process is aborted when [b] is false. *)
Definition c_assert {St} (NDEBUG b : bool) : M St unit :=
  if NDEBUG then ret tt else if b then ret tt else λ _, Aborted.

(** [std::unordered_map::emplace]: the element is inserted only when the
    map holds no element with that key. *)
Definition emplace {K V} `{Countable K} (key : K) (val : V)
    (tbl : gmap K V) : gmap K V :=
  if tbl !! key is Some _ then tbl else <[key := val]> tbl.

(** [std::vector::resize(n)]: shortened to [n] elements, or extended with
    value-initialised ones. *)
Definition resize {A} (dflt : A) (n : nat) (v : list A) : list A :=
  take n v ++ replicate (n - length v) dflt.

(** ** Util.hpp *)

Module Util.

(** Modelled from the spec: [Util::exp2] (Util.hpp is not among the
    sources).  The spec has the constructor allocate [2^numQubits]
    amplitudes and [applyMatrix] compare against [4^k]; the helper is the
    exact power of two. *)
Definition exp2 (n : nat) : nat := 2 ^ n.

(** [Util::lookup] on a constant table of pairs (ConstantUtil.hpp is not
    among the sources): the value paired with the first occurrence of the
    key.  What the helper does for a key that is not in the table is not
    visible; the callers below let it throw. *)
Fixpoint lookup {K V} `{EqDecision K} (arr : list (K * V)) (key : K) : option V :=
  match arr with
  | [] => None
  | (k, v) :: arr' => if decide (k = key) then Some v else lookup arr' key
  end.

End Util.

(** ** KernelType.hpp *)

(** [enum class KernelType { PI, LM, None }] *)
Module KernelType.
Inductive t : Type := PI | LM | None.
End KernelType.

Global Instance KernelType_eq_dec : EqDecision KernelType.t.
Proof. solve_decision. Defined.

Definition KernelType_to_nat (k : KernelType.t) : nat :=
  match k with
  | KernelType.PI => 0
  | KernelType.LM => 1
  | KernelType.None => 2
  end.

Definition KernelType_of_nat (n : nat) : option KernelType.t :=
  match n with
  | 0 => Some KernelType.PI
  | 1 => Some KernelType.LM
  | 2 => Some KernelType.None
  | _ => @Datatypes.None KernelType.t
  end.

Global Program Instance KernelType_countable : Countable KernelType.t :=
  inj_countable KernelType_to_nat KernelType_of_nat _.
Next Obligation. by intros []. Qed.

(** ** DynamicDispatcher.hpp *)

(** The three classes of dense-matrix kernels that [applyMatrix] selects
    from ([Gates::MatrixOperation]). *)
Inductive MatrixOperation : Type := SingleQubitOp | TwoQubitOp | MultiQubitOp.

Global Instance MatrixOperation_eq_dec : EqDecision MatrixOperation.
Proof. solve_decision. Defined.

Definition MatrixOperation_to_nat (m : MatrixOperation) : nat :=
  match m with SingleQubitOp => 0 | TwoQubitOp => 1 | MultiQubitOp => 2 end.

Definition MatrixOperation_of_nat (n : nat) : option MatrixOperation :=
  match n with
  | 0 => Some SingleQubitOp
  | 1 => Some TwoQubitOp
  | 2 => Some MultiQubitOp
  | _ => None
  end.

Global Program Instance MatrixOperation_countable : Countable MatrixOperation :=
  inj_countable MatrixOperation_to_nat MatrixOperation_of_nat _.
Next Obligation. by intros []. Qed.

(** The double quote character, for the message of [applyGenerator]. *)
Definition dquote : string := String (Ascii.ascii_of_nat 34) EmptyString.

(** A kernel works in place on the amplitudes [data] points to: the store
    of the computation is that array.
    [GateFunc(data, num_qubits, wires, inverse, params)];
    [GeneratorFunc(data, num_qubits, wires, adj)] returns the scale;
    [MatrixFunc(data, num_qubits, matrix, wires, inverse)], where [matrix]
    is a bare pointer, modelled by the entries found from it on. *)
Abbreviation GateFunc PrecisionT CFP_t :=
  (nat → list nat → bool → list PrecisionT → M (list CFP_t) unit).

Abbreviation GeneratorFunc PrecisionT CFP_t :=
  (nat → list nat → bool → M (list CFP_t) PrecisionT).

Abbreviation MatrixFunc CFP_t :=
  (nat → list CFP_t → list nat → bool → M (list CFP_t) unit).

Section DynamicDispatcher.

(** [PrecisionT] and [std::complex<PrecisionT>]; the enumerations
    [Gates::GateOperation] and [Gates::GeneratorOperation], whose
    declarations are not among the sources, are any types with decidable
    equality that can key a hash map. *)
Context {PrecisionT CFP_t : Type}.
Context {GateOperation : Type}
  `{!EqDecision GateOperation, !Countable GateOperation}.
Context {GeneratorOperation : Type}
  `{!EqDecision GeneratorOperation, !Countable GeneratorOperation}.

(** The constant tables [Gates::Constant::gate_names] and
    [generator_names] (Constant.hpp, not among the sources). *)
Variable gate_names : list (GateOperation * string).
Variable generator_names : list (GeneratorOperation * string).

(** Whether the translation unit is compiled with [NDEBUG]. *)
Variable NDEBUG : bool.

Record DynamicDispatcher : Type := mkDynamicDispatcher {
  str_to_gates_ : gmap string GateOperation;
  gates_ : gmap (GateOperation * KernelType.t) (GateFunc PrecisionT CFP_t);
  generators_ : gmap (GeneratorOperation * KernelType.t)
                 (GeneratorFunc PrecisionT CFP_t);
  matrices_ : gmap (MatrixOperation * KernelType.t) (MatrixFunc CFP_t)
}.

(** [for (const auto &[gate_op, gate_name] : names)
         tbl.emplace(gate_name, gate_op);] *)
Definition fill_names (names : list (GateOperation * string))
    (tbl : gmap string GateOperation) : gmap string GateOperation :=
  foldl (λ tbl entry, emplace entry.2 entry.1 tbl) tbl names.

(** The private constructor: the name table is filled from [gate_names],
    the registries are empty.  ([str_to_gntrs_], used only by the by-name
    overload of [applyGenerator], is left out.) *)
Definition DynamicDispatcher_ctor : DynamicDispatcher :=
  {| str_to_gates_ := fill_names gate_names ∅;
     gates_ := ∅;
     generators_ := ∅;
     matrices_ := ∅ |}.

(** [str_to_gates_.at(gate_name)] *)
Definition strToGateOp {St} (d : DynamicDispatcher) (gate_name : string)
    : M St GateOperation :=
  match str_to_gates_ d !! gate_name with
  | Some gate_op => ret gate_op
  | None => throw out_of_range
  end.

Definition registerGateOperation (gate_op : GateOperation)
    (kernel : KernelType.t) (func : GateFunc PrecisionT CFP_t) (d : DynamicDispatcher)
    : DynamicDispatcher :=
  {| str_to_gates_ := str_to_gates_ d;
     gates_ := emplace (gate_op, kernel) func (gates_ d);
     generators_ := generators_ d;
     matrices_ := matrices_ d |}.

Definition registerGeneratorOperation (gntr_op : GeneratorOperation)
    (kernel : KernelType.t) (func : GeneratorFunc PrecisionT CFP_t) (d : DynamicDispatcher)
    : DynamicDispatcher :=
  {| str_to_gates_ := str_to_gates_ d;
     gates_ := gates_ d;
     generators_ := emplace (gntr_op, kernel) func (generators_ d);
     matrices_ := matrices_ d |}.

Definition registerMatrixOperation (mat_op : MatrixOperation)
    (kernel : KernelType.t) (func : MatrixFunc CFP_t) (d : DynamicDispatcher)
    : DynamicDispatcher :=
  {| str_to_gates_ := str_to_gates_ d;
     gates_ := gates_ d;
     generators_ := generators_ d;
     matrices_ := emplace (mat_op, kernel) func (matrices_ d) |}.

Definition isRegistered_gate (d : DynamicDispatcher)
    (gate_op : GateOperation) (kernel : KernelType.t) : bool :=
  if gates_ d !! (gate_op, kernel) is Some _ then true else false.

Definition isRegistered_generator (d : DynamicDispatcher)
    (gntr_op : GeneratorOperation) (kernel : KernelType.t) : bool :=
  if generators_ d !! (gntr_op, kernel) is Some _ then true else false.

Definition isRegistered_matrix (d : DynamicDispatcher)
    (mat_op : MatrixOperation) (kernel : KernelType.t) : bool :=
  if matrices_ d !! (mat_op, kernel) is Some _ then true else false.

(** The text of an exception whose message names an entry of a constant
    table: [Util::lookup] has to find the entry first. *)
Definition named_error {K} `{EqDecision K} (tbl : list (K * string))
    (key : K) (msg : string → string) : exn :=
  match Util.lookup tbl key with
  | Some name => invalid_argument (msg name)
  | None => range_error
  end.

Definition not_registered (op_name : string) : string :=
  "The gate " +:+ op_name +:+ " is not registered for the given kernel".

(** [applyOperation(kernel, data, num_qubits, op_name, wires, inverse,
    params)]: the gate is named by a string. *)
Definition applyOperation_name (d : DynamicDispatcher) (kernel : KernelType.t)
    (num_qubits : nat) (op_name : string) (wires : list nat) (inverse : bool)
    (params : list PrecisionT) : M (list CFP_t) unit :=
  do gate_op <- strToGateOp d op_name;
  match gates_ d !! (gate_op, kernel) with
  | None => throw (invalid_argument (not_registered op_name))
  | Some func => func num_qubits wires inverse params
  end.

(** [applyOperation(kernel, data, num_qubits, gate_op, wires, inverse,
    params)]: the gate is named by its enumerator. *)
Definition applyOperation_op (d : DynamicDispatcher) (kernel : KernelType.t)
    (num_qubits : nat) (gate_op : GateOperation) (wires : list nat)
    (inverse : bool) (params : list PrecisionT) : M (list CFP_t) unit :=
  match gates_ d !! (gate_op, kernel) with
  | None => throw (named_error gate_names gate_op not_registered)
  | Some func => func num_qubits wires inverse params
  end.

(** The two [applyOperations] members are not embedded.  Their loops call
    [applyOperation(data, num_qubits, ops[i], wires[i], inverse[i], ...)],
    and both overloads of [applyOperation] that the class declares take the
    kernel variant first: the call matches neither, so the members cannot
    be instantiated and no run of them exists. *)

(** The [switch] on the number of wires in [applyMatrix]. *)
Definition matrix_class (n_wires : nat) : MatrixOperation :=
  match n_wires with
  | 1 => SingleQubitOp
  | 2 => TwoQubitOp
  | _ => MultiQubitOp
  end.

(** [applyMatrix(kernel, data, num_qubits, const complex *matrix, wires,
    inverse)].  Nothing tells the function how many entries [matrix] points
    to.  When no kernel is found the message is built from [iter->first]
    with [iter] the end iterator, which is undefined. *)
Definition applyMatrix_ptr (d : DynamicDispatcher) (kernel : KernelType.t)
    (num_qubits : nat) (matrix : list CFP_t) (wires : list nat)
    (inverse : bool) : M (list CFP_t) unit :=
  c_assert NDEBUG (bool_decide (length wires ≤ num_qubits)) ;;
  match matrices_ d !! (matrix_class (length wires), kernel) with
  | None => undefined_behaviour
  | Some func => func num_qubits matrix wires inverse
  end.

Definition wrong_matrix_size : string :=
  "The size of matrix does not match with the given number of wires".

(** [applyMatrix(kernel, data, num_qubits, const vector<complex> &matrix,
    wires, inverse)] *)
Definition applyMatrix_vec (d : DynamicDispatcher) (kernel : KernelType.t)
    (num_qubits : nat) (matrix : list CFP_t) (wires : list nat)
    (inverse : bool) : M (list CFP_t) unit :=
  if bool_decide (length matrix ≠ Util.exp2 (2 * length wires))
  then throw (invalid_argument wrong_matrix_size)
  else applyMatrix_ptr d kernel num_qubits matrix wires inverse.

Definition no_such_generator (name : string) : string :=
  "Cannot find a gate with a given name " +:+ dquote +:+ name +:+ dquote +:+ ".".

(** [applyGenerator(kernel, data, num_qubits, gntr_op, wires, adj)] *)
Definition applyGenerator_op (d : DynamicDispatcher) (kernel : KernelType.t)
    (num_qubits : nat) (gntr_op : GeneratorOperation) (wires : list nat)
    (adj : bool) : M (list CFP_t) PrecisionT :=
  match generators_ d !! (gntr_op, kernel) with
  | None => throw (named_error generator_names gntr_op no_such_generator)
  | Some func => func num_qubits wires adj
  end.

End DynamicDispatcher.

(** ** Floating-point scalars *)

(** What the code asks of its floating-point template parameter: the
    constants 0 and 1, [+], [*] and [==]. *)
Class Scalar (T : Type) : Type := {
  fzero : T;
  fone : T;
  fadd : T → T → T;
  fmul : T → T → T;
  feqb : T → T → bool
}.

(** Integers as scalars, for concrete runs. *)
Global Instance Z_Scalar : Scalar Z :=
  {| fzero := 0%Z; fone := 1%Z; fadd := Z.add; fmul := Z.mul; feqb := Z.eqb |}.

(** ** StateVectorLQubitManaged.hpp *)

Section StateVectorLQubitManaged.

Context {PrecisionT : Type} `{!Scalar PrecisionT}.

(** [std::complex<PrecisionT>] *)
Definition ComplexT : Type := PrecisionT * PrecisionT.

(** The qubit count kept by the base class and the owned buffer.  (The
    threading and memory-model options only choose the allocator.) *)
Record StateVectorLQubitManaged : Type := mkStateVector {
  num_qubits_ : nat;
  data_ : list ComplexT
}.

(** [setBasisState(index)]: [std::fill(data_.begin(), data_.end(), 0)],
    then the unchecked store [data_[index] = {1, 0}]. *)
Definition setBasisState (index : nat) : M StateVectorLQubitManaged unit :=
  do sv <- get;
  let filled := replicate (length (data_ sv)) (fzero, fzero) in
  if decide (index < length filled)
  then put (mkStateVector (num_qubits_ sv) (<[index := (fone, fzero)]> filled))
  else undefined_behaviour.

(** [std::vector<ComplexT, AlignedAllocator<ComplexT>>(n, value, alloc)],
    the initialiser of [data_].  The vector throws [std::length_error] when
    [n] is more than its [max_size()], which is below [2^w] for a
    [std::size_t] of [w] bits; otherwise it asks the allocator for [n]
    elements, and the allocator throws [std::bad_alloc] when it has not that
    many to give ([AlignedAllocator], Memory.hpp, is not among the sources:
    [available] is the number of elements it can provide). *)
Definition vector_ctor {St A} (max_size available : nat) (n : nat)
    (value : A) : M St (list A) :=
  if decide (max_size < n) then throw length_error
  else if decide (available < n) then throw bad_alloc
  else ret (replicate n value).

(** [StateVectorLQubitManaged(num_qubits, threading, memory_model)]: the
    members are initialised, then the body calls [setBasisState(0U)].  The
    new object is the result; when the initialiser of [data_] throws, none
    is made.  The length asked for is [Util::exp2(num_qubits)], the exact
    power of two: a power that does not fit a [std::size_t] is above every
    [max_size()]. *)
Definition StateVectorLQubitManaged_ctor {St} (max_size available : nat)
    (num_qubits : nat) : M St StateVectorLQubitManaged :=
  do data <- vector_ctor max_size available (Util.exp2 num_qubits)
               (fzero, fzero);
  with_local (mkStateVector num_qubits data) (setBasisState 0).

End StateVectorLQubitManaged.

(** ** JacobianProd.hpp *)

(** Modelled from the spec: [GradTapeT] (Tape.hpp is not among the
    sources): the recorded operations, the observables and the sorted
    indices of the trainable parameters. *)
Record GradTapeT (OpsData ObsData : Type) : Type := mkGradTape {
  operations : OpsData;
  observables : list ObsData;
  trainableParams : list nat
}.
Arguments mkGradTape {OpsData ObsData} _ _ _.
Arguments operations {OpsData ObsData} _.
Arguments observables {OpsData ObsData} _.
Arguments trainableParams {OpsData ObsData} _.

Section VectorJacobianProduct.

Context {T : Type} `{!Scalar T}.

(** [t = 0; for (i = 0; i < n; i++) t += f(i);] *)
Definition big_sum (n : nat) (f : nat → T) : T :=
  foldl (λ acc i, fadd acc (f i)) fzero (seq 0 n).

(** Modelled from the spec: [Util::vecMatrixProd(v_out, v_in, mat, m, n)]
    (Util.hpp is not among the sources).  For the row-wise flattened
    [m] x [n] matrix [mat], the spec has entry [j] of the product be the
    sum over the rows [i] of [v_in[i] * mat[i][j]]. *)
Definition vecMatrixProd (v_in mat : list T) (m n : nat) : M (list T) unit :=
  put (map (λ j, big_sum m (λ i, fmul (nth i v_in fzero)
                                      (nth (i * n + j) mat fzero)))
           (seq 0 n)).

(** The contraction as the spec words it, on the Jacobian as a matrix:
    entry [j] of [dy^T . J] is the sum over the rows [i] of
    [dy[i] * J[i][j]]. *)
Definition contraction (dy : list T) (J : list (list T)) (j : nat) : T :=
  big_sum (length J) (λ i, fmul (nth i dy fzero) (nth j (nth i J []) fzero)).

(** The body of the inner loop of [getRowMajor],
    [res[k] = jac[i][j]; k++;], on the store made of [res] and [k]. *)
Definition getRowMajor_step (jac : list (list T)) (i j : nat)
    : M (list T * nat) unit :=
  do st <- get;
  do row <- vec_at jac i;
  do x <- vec_at row j;
  if decide (st.2 < length st.1)
  then put (<[st.2 := x]> st.1, S st.2)
  else undefined_behaviour.

(** [getRowMajor(res, jac, len)] *)
Definition getRowMajor (jac : list (list T)) (len : nat) : M (list T) unit :=
  match jac with
  | [] => ret tt
  | front :: _ =>
      let r_len := length jac in
      let c_len := length front in
      let t_len := if decide (len ≠ 0) then len else r_len * c_len in
      do res <- get;
      (if decide (length res ≠ t_len) then put (resize fzero t_len res)
       else ret tt) ;;
      zoom (λ res, (res, 0)) (λ st _, st.1)
        (for_loop 0 r_len (λ i,
           for_loop 0 c_len (getRowMajor_step jac i)))
  end.

Definition invalid_dy_size : string :=
  "Invalid size for the gradient-output vector".

(** [computeVJP(vjp, jac, dy_row)]; the store is [vjp]. *)
Definition computeVJP (jac : list (list T)) (dy_row : list T)
    : M (list T) unit :=
  match jac, dy_row with
  | [], _ | _, [] => put []
  | front :: _, _ :: _ =>
      let r_len := length jac in
      let c_len := length front in
      if decide (length dy_row ≠ r_len)
      then throw (invalid_argument invalid_dy_size)
      else
        let t_len := r_len * c_len in
        do jac_row <- with_local (replicate t_len fzero)
                        (getRowMajor jac t_len);
        vecMatrixProd dy_row jac_row r_len c_len
  end.

(** [_computeVJP(vjp, jac, dy_row, m, n)], on a flattened Jacobian. *)
Definition _computeVJP (jac dy_row : list T) (m n : nat) : M (list T) unit :=
  match jac, dy_row with
  | [], _ | _, [] => put []
  | _ :: _, _ :: _ =>
      if decide (length dy_row ≠ m)
      then throw (invalid_argument invalid_dy_size)
      else vecMatrixProd dy_row jac m n
  end.

Context {OpsData ObsData : Type}.

(** [AdjointJacobian<T>::adjointJacobianTape(jac, tape, apply_operations)]
    of the base class (AdjointDiff.hpp, not among the sources): any
    computation on the Jacobian it is handed. *)
Variable adjointJacobianTape :
  GradTapeT OpsData ObsData → bool → M (list (list T)) unit.

(** The memory [vectorJacobianProduct] works on: its two output arguments,
    and a count of the calls made to [adjointJacobianTape]. *)
Record vjp_store : Type := mkVjpStore {
  vjp : list T;
  jac : list (list T);
  adjoint_calls : nat
}.

Definition on_vjp {A} (m : M (list T) A) : M vjp_store A :=
  zoom vjp (λ v st, mkVjpStore v (jac st) (adjoint_calls st)) m.

Definition on_jac {A} (m : M (list (list T)) A) : M vjp_store A :=
  zoom jac (λ j st, mkVjpStore (vjp st) j (adjoint_calls st)) m.

Definition count_adjoint_call : M vjp_store unit :=
  λ st, Returned tt (mkVjpStore (vjp st) (jac st) (S (adjoint_calls st))).

(** [std::all_of(dy.cbegin(), dy.cend(), [](T e) { return e == 0; })] *)
Definition allzero (dy : list T) : bool := forallb (λ e, feqb e fzero) dy.

(** [vectorJacobianProduct(vjp, jac, dy, tape, apply_operations)] *)
Definition vectorJacobianProduct (dy : list T)
    (tape : GradTapeT OpsData ObsData) (apply_operations : bool)
    : M vjp_store unit :=
  let num_params := length (trainableParams tape) in
  if bool_decide (num_params = 0) || bool_decide (dy = [])
  then on_vjp (put [])
  else if allzero dy
  then on_vjp (do v <- get; put (resize fzero num_params v))
  else
    count_adjoint_call ;;
    on_jac (adjointJacobianTape tape apply_operations) ;;
    do st <- get;
    on_vjp (computeVJP (jac st) dy).

(** A read of a variable of automatic storage through a reference that a
    lambda has captured: the value of the variable while the call that
    declared it is running, undefined behaviour once that call has
    returned. *)
Definition captured {St A} (frame_live : bool) (x : A) : M St A :=
  if frame_live then ret x else undefined_behaviour.

(** The callable [vectorJacobianProductFunc(dy, tape, apply_operations)]
    returns, invoked while the call that made it is running ([frame_live])
    or after it has returned.  The first lambda captures nothing.  The
    second captures the local [num_params] by reference ([&num_params]).
    The third captures by reference all it names ([&]): the local
    [num_params] and the by-value parameter [apply_operations], both in the
    frame of [vectorJacobianProductFunc], and the objects of the caller that
    [dy] and [tape] refer to, which are taken to outlive the callable.
    The callable is a computation on the count of calls to
    [adjointJacobianTape]; the vectors [vjp] and [jac] of the third lambda
    are its locals. *)
Definition vectorJacobianProductFunc_callable (dy : list T)
    (tape : GradTapeT OpsData ObsData) (apply_operations : bool)
    (frame_live : bool) : M nat (list T) :=
  let num_params := length (trainableParams tape) in
  if bool_decide (num_params = 0) || bool_decide (dy = [])
  then ret []
  else if allzero dy
  then
    do n <- captured frame_live num_params;
    ret (replicate n fzero)
  else
    do n <- captured frame_live num_params;
    do n' <- captured frame_live num_params;
    do apply_operations' <- captured frame_live apply_operations;
    do calls <- get;
    put (S calls) ;;
    do locals <- with_local
                   (replicate n fzero,
                    replicate (length (observables tape))
                      (replicate n' fzero))
                   (zoom snd (λ j st, (st.1, j))
                      (adjointJacobianTape tape apply_operations') ;;
                    do st <- get;
                    zoom fst (λ v st, (v, st.2)) (computeVJP st.2 dy));
    ret locals.1.

End VectorJacobianProduct.

(** ** More of DynamicDispatcher.hpp: generator names *)

(** [std::string_view::rfind(pat)]: the position of the last occurrence of
    [pat], if there is one. *)
Fixpoint rfind (pat s : string) : option nat :=
  match s with
  | EmptyString => if String.prefix pat s then Some 0 else None
  | String _ s' =>
      match rfind pat s' with
      | Some i => Some (S i)
      | None => if String.prefix pat s then Some 0 else None
      end
  end.

(** [s.substr(n)]: what is left of [s] from position [n] on. *)
Fixpoint substr_from (n : nat) (s : string) : string :=
  match n, s with
  | S n', String _ s' => substr_from n' s'
  | _, _ => s
  end.

Definition generator_prefix : string := "Generator".

(** [removeGeneratorPrefix(op_name)] *)
Definition removeGeneratorPrefix (op_name : string) : string :=
  if decide (rfind generator_prefix op_name ≠ Some 0) then op_name
  else substr_from (String.length generator_prefix) op_name.

Section DynamicDispatcher_generator_names.

Context {PrecisionT CFP_t : Type}.
Context {GateOperation : Type}
  `{!EqDecision GateOperation, !Countable GateOperation}.
Context {GeneratorOperation : Type}
  `{!EqDecision GeneratorOperation, !Countable GeneratorOperation}.

(** The member [str_to_gntrs_], kept beside the record [DynamicDispatcher]:
    the constructor fills it with
    [str_to_gntrs_.emplace(removeGeneratorPrefix(gntr_name), gntr_op)] for
    the entries of [generator_names], in their order. *)
Definition str_to_gntrs_ctor
    (generator_names : list (GeneratorOperation * string))
    : gmap string GeneratorOperation :=
  foldl (λ tbl entry, emplace (removeGeneratorPrefix entry.2) entry.1 tbl)
    ∅ generator_names.

(** [str_to_gntrs_.at(gntr_name)] *)
Definition strToGeneratorOp {St}
    (str_to_gntrs_ : gmap string GeneratorOperation) (gntr_name : string)
    : M St GeneratorOperation :=
  match str_to_gntrs_ !! gntr_name with
  | Some gntr_op => ret gntr_op
  | None => throw out_of_range
  end.

(** [applyGenerator(kernel, data, num_qubits, op_name, wires, adj)]: the
    generator is named by a string. *)
Definition applyGenerator_name
    (d : @DynamicDispatcher PrecisionT CFP_t GateOperation _ _
           GeneratorOperation _ _)
    (str_to_gntrs_ : gmap string GeneratorOperation)
    (kernel : KernelType.t) (num_qubits : nat) (op_name : string)
    (wires : list nat) (adj : bool) : M (list CFP_t) PrecisionT :=
  do gntr_op <- strToGeneratorOp str_to_gntrs_ op_name;
  match generators_ d !! (gntr_op, kernel) with
  | None => throw (invalid_argument (no_such_generator op_name))
  | Some func => func num_qubits wires adj
  end.

End DynamicDispatcher_generator_names.

(** ** Error.hpp, as far as the sources use it *)

Section abort_macros.

(** [PL_ABORT(message)] (Error.hpp is not among the sources): whatever the
    macro does with the message, the statements after it are not run. *)
Variable PL_ABORT : ∀ St A : Type, string → M St A.

(** The message [PL_ASSERT(cond)] builds from the text of its condition. *)
Variable assertion_failed : string → string.

Definition PL_ABORT_IF {St} (cond : bool) (message : string)
    (rest : M St unit) : M St unit :=
  if cond then PL_ABORT St unit message else rest.

Definition PL_ABORT_IF_NOT {St} (cond : bool) (message : string)
    (rest : M St unit) : M St unit :=
  if cond then rest else PL_ABORT St unit message.

Definition PL_ASSERT {St} (cond : bool) (cond_text : string)
    (rest : M St unit) : M St unit :=
  if cond then rest else PL_ABORT St unit (assertion_failed cond_text).

(** ** More of StateVectorLQubitManaged.hpp *)

Context {PrecisionT : Type} `{!Scalar PrecisionT}.

(** The body of the loop of [setStateVector]: the unchecked store
    [data_[indices[n]] = values[n]]. *)
Definition setStateVector_step (indices : list nat)
    (values : list (@ComplexT PrecisionT)) (n : nat)
    : M (@StateVectorLQubitManaged PrecisionT) unit :=
  do sv <- get;
  do index <- vec_at indices n;
  do value <- vec_at values n;
  if decide (index < length (data_ sv))
  then put (mkStateVector (num_qubits_ sv) (<[index := value]> (data_ sv)))
  else undefined_behaviour.

(** [setStateVector(indices, values)] *)
Definition setStateVector (indices : list nat)
    (values : list (@ComplexT PrecisionT))
    : M (@StateVectorLQubitManaged PrecisionT) unit :=
  for_loop 0 (length indices) (setStateVector_step indices values).

(** [getLength()] of the base class (StateVectorLQubit.hpp is not among
    the sources). *)
Variable getLength : @StateVectorLQubitManaged PrecisionT → nat.

(** [resetStateVector()] *)
Definition resetStateVector : M (@StateVectorLQubitManaged PrecisionT) unit :=
  do sv <- get;
  if decide (0 < getLength sv) then setBasisState 0 else ret tt.

(** [updateData(new_data, new_size)]: [new_data] is a bare pointer,
    modelled by the entries found from it on; [std::copy] reads
    [new_size] of them. *)
Definition updateData_ptr (new_data : list (@ComplexT PrecisionT))
    (new_size : nat) : M (@StateVectorLQubitManaged PrecisionT) unit :=
  do sv <- get;
  PL_ASSERT (bool_decide (length (data_ sv) = new_size))
    "data_.size() == new_size"
    (if decide (new_size ≤ length new_data)
     then put (mkStateVector (num_qubits_ sv) (take new_size new_data))
     else undefined_behaviour).

(** [updateData(new_data)] on a [std::vector]. *)
Definition updateData_vec (new_data : list (@ComplexT PrecisionT))
    : M (@StateVectorLQubitManaged PrecisionT) unit :=
  updateData_ptr new_data (length new_data).

(** ** MPOTNCuda.hpp: the checks at the head of the constructor *)

(** [std::is_sorted(first, last)]: no element is smaller than the one
    before it. *)
Fixpoint is_sorted (l : list nat) : bool :=
  match l with
  | [] => true
  | x :: l' =>
      match l' with
      | [] => true
      | y :: _ => if decide (y < x) then false else is_sorted l'
      end
  end.

Definition tensors_wires_mismatch : string :=
  "Number of tensors and wires must match.".
Definition bond_dim_too_small : string :=
  "Max MPO bond dimension must be at least 2.".
Definition sorted_wires_only : string :=
  "Only sorted target wires is accepeted.".

(** [MPOTNCuda(tensor_network, tensors, wires, maxBondDim)]: the three
    checks the constructor starts with.  What follows them, the set-up of
    the sites and of the cuTensorNet operator, is the parameter [set_up]. *)
Definition MPOTNCuda_ctor {St Tensor} (tensors : list Tensor)
    (wires : list nat) (maxBondDim : nat) (set_up : M St unit) : M St unit :=
  PL_ABORT_IF_NOT (bool_decide (length tensors = length wires))
    tensors_wires_mismatch
    (PL_ABORT_IF (bool_decide (maxBondDim < 2)) bond_dim_too_small
       (PL_ABORT_IF (is_sorted wires) sorted_wires_only set_up)).

End abort_macros.

(** ** A small instance for concrete runs *)

(** Three of the non-parametric gates, with their names. *)
Inductive SampleGate : Type := PauliX | Hadamard | CNOT.

Global Instance SampleGate_eq_dec : EqDecision SampleGate.
Proof. solve_decision. Defined.

Definition SampleGate_to_nat (g : SampleGate) : nat :=
  match g with PauliX => 0 | Hadamard => 1 | CNOT => 2 end.

Definition SampleGate_of_nat (n : nat) : option SampleGate :=
  match n with
  | 0 => Some PauliX
  | 1 => Some Hadamard
  | 2 => Some CNOT
  | _ => None
  end.

Global Program Instance SampleGate_countable : Countable SampleGate :=
  inj_countable SampleGate_to_nat SampleGate_of_nat _.
Next Obligation. by intros []. Qed.

Definition sample_gate_names : list (SampleGate * string) :=
  [(PauliX, "PauliX"); (Hadamard, "Hadamard"); (CNOT, "CNOT")].

(** A dispatcher over integer amplitudes and parameters; no generator is
    ever registered in it. *)
Abbreviation SampleDispatcher :=
  (@DynamicDispatcher Z Z SampleGate _ _ Empty_set _ _).

(** A stand-in for the Pauli-X kernel on one qubit: the two amplitudes
    change places. *)
Definition sample_flip : GateFunc Z Z :=
  λ _ _ _ _ data, Returned tt (reverse data).

(** A stand-in for a one-qubit matrix kernel: each amplitude is multiplied
    by the first entry of the matrix. *)
Definition sample_scale : MatrixFunc Z :=
  λ _ matrix _ _ data,
    Returned tt (map (Z.mul (nth 0 matrix 0%Z)) data).

(** The registry after start-up in which only the [LM] kernels above are
    registered. *)
Definition sample_dispatcher : SampleDispatcher :=
  registerMatrixOperation SingleQubitOp KernelType.LM sample_scale
    (registerGateOperation PauliX KernelType.LM sample_flip
       (DynamicDispatcher_ctor sample_gate_names)).

(** The dispatchers a program can hold: the one the constructor makes, and
    those obtained from it by registrations. *)
Inductive configured {PrecisionT CFP_t GateOperation GeneratorOperation : Type}
    `{!EqDecision GateOperation, !Countable GateOperation}
    `{!EqDecision GeneratorOperation, !Countable GeneratorOperation}
    (gate_names : list (GateOperation * string))
    : @DynamicDispatcher PrecisionT CFP_t GateOperation _ _
        GeneratorOperation _ _ → Prop :=
| configured_ctor :
    configured gate_names (DynamicDispatcher_ctor gate_names)
| configured_gate d gate_op kernel func :
    configured gate_names d →
    configured gate_names (registerGateOperation gate_op kernel func d)
| configured_generator d gntr_op kernel func :
    configured gate_names d →
    configured gate_names (registerGeneratorOperation gntr_op kernel func d)
| configured_matrix d mat_op kernel func :
    configured gate_names d →
    configured gate_names (registerMatrixOperation mat_op kernel func d).

(** A computation that never leaves by an exception. *)
Definition no_throw {St A} (m : M St A) : Prop :=
  ∀ s e s', m s ≠ Thrown e s'.

(** Two generators, with their names, and a dispatcher that knows them. *)
Inductive SampleGenerator : Type := GeneratorRX | GeneratorRY.

Global Instance SampleGenerator_eq_dec : EqDecision SampleGenerator.
Proof. solve_decision. Defined.

Definition SampleGenerator_to_nat (g : SampleGenerator) : nat :=
  match g with GeneratorRX => 0 | GeneratorRY => 1 end.

Definition SampleGenerator_of_nat (n : nat) : option SampleGenerator :=
  match n with
  | 0 => Some GeneratorRX
  | 1 => Some GeneratorRY
  | _ => None
  end.

Global Program Instance SampleGenerator_countable : Countable SampleGenerator :=
  inj_countable SampleGenerator_to_nat SampleGenerator_of_nat _.
Next Obligation. by intros []. Qed.

Definition sample_generator_names : list (SampleGenerator * string) :=
  [(GeneratorRX, "GeneratorRX"); (GeneratorRY, "GeneratorRY")].

(** A stand-in for a generator kernel: the buffer is reversed and the scale
    is -1. *)
Definition sample_generator : GeneratorFunc Z Z :=
  λ _ _ _ data, Returned (-1)%Z (reverse data).

(** The dispatcher the constructor makes, with these generators as its
    generator type, and the one in which the RX generator is registered. *)
Definition sample_empty_dispatcher
    : @DynamicDispatcher Z Z SampleGate _ _ SampleGenerator _ _ :=
  DynamicDispatcher_ctor sample_gate_names.

Definition sample_generator_dispatcher
    : @DynamicDispatcher Z Z SampleGate _ _ SampleGenerator _ _ :=
  registerGeneratorOperation GeneratorRX KernelType.LM sample_generator
    sample_empty_dispatcher.

(** A stand-in for [PL_ABORT]: an exception that carries the message. *)
Definition sample_abort (St A : Type) (message : string) : M St A :=
  throw (invalid_argument message).

(** * Properties *)

(** ** The outcome monad *)

Lemma no_throw_ret {St A} (a : A) : no_throw (@ret St A a).
Proof. by intros s e s'. Qed.

Lemma no_throw_bind {St A B} (m : M St A) (k : A → M St B) :
  no_throw m → (∀ a, no_throw (k a)) → no_throw (bind m k).
Proof.
  intros Hm Hk s e s'. unfold bind.
  destruct (m s) as [a s1|e1 s1| |] eqn:E; try done.
  - apply Hk.
  - by destruct (Hm s e1 s1).
Qed.

Lemma no_throw_vec_at {St A} (v : list A) i : no_throw (@vec_at St A v i).
Proof. intros s e s'. unfold vec_at. by destruct (v !! i). Qed.

Lemma no_throw_for_loop {St} (body : nat → M St unit) n :
  (∀ i, no_throw (body i)) → ∀ lo, no_throw (for_loop lo n body).
Proof.
  intros Hbody. induction n as [|n IH]; intros lo; simpl.
  - apply no_throw_ret.
  - apply no_throw_bind; [apply Hbody | intros _; apply IH].
Qed.

Lemma no_throw_zoom {S1 S2 A} (proj : S2 → S1) upd (m : M S1 A) :
  no_throw m → no_throw (zoom proj upd m).
Proof.
  intros Hm s e s'. unfold zoom.
  destruct (m (proj s)) as [a s1|e1 s1| |] eqn:E; try done.
  by destruct (Hm (proj s) e1 s1).
Qed.

(** ** Kernel registry and dispatch *)

Lemma emplace_present {K V} `{Countable K} (key : K) (val old : V)
    (tbl : gmap K V) :
  tbl !! key = Some old → emplace key val tbl = tbl.
Proof. unfold emplace. by intros ->. Qed.

Lemma emplace_absent {K V} `{Countable K} (key : K) (val : V)
    (tbl : gmap K V) :
  tbl !! key = None → emplace key val tbl = <[key := val]> tbl.
Proof. unfold emplace. by intros ->. Qed.

Lemma lookup_emplace_ne {K V} `{Countable K} (key key' : K) (val : V)
    (tbl : gmap K V) :
  key ≠ key' → emplace key val tbl !! key' = tbl !! key'.
Proof.
  intros Hne. unfold emplace.
  destruct (tbl !! key); [done | by rewrite lookup_insert_ne].
Qed.

Lemma lookup_emplace_is_Some {K V} `{Countable K} (key : K) (val : V)
    (tbl : gmap K V) :
  is_Some (emplace key val tbl !! key).
Proof.
  unfold emplace. destruct (tbl !! key) as [old|] eqn:E.
  - rewrite E. by eexists.
  - rewrite lookup_insert_eq. by eexists.
Qed.

Section DynamicDispatcher_properties.

Context {PrecisionT CFP_t : Type}.
Context {GateOperation : Type}
  `{!EqDecision GateOperation, !Countable GateOperation}.
Context {GeneratorOperation : Type}
  `{!EqDecision GeneratorOperation, !Countable GeneratorOperation}.

Abbreviation Dispatcher :=
  (@DynamicDispatcher PrecisionT CFP_t GateOperation _ _
     GeneratorOperation _ _).

Implicit Types (d : Dispatcher) (kernel : KernelType.t).
Implicit Types (gate_names : list (GateOperation * string)).
Implicit Types (data : list CFP_t) (wires : list nat).
Implicit Types (params : list PrecisionT).

(** *** The name table *)

Lemma fill_names_keeps gate_names tbl name gate_op :
  tbl !! name = Some gate_op →
  fill_names gate_names tbl !! name = Some gate_op.
Proof.
  revert tbl. induction gate_names as [|[op nm] rest IH]; intros tbl Htbl.
  - done.
  - cbn. apply IH. destruct (decide (nm = name)) as [->|Hne].
    + by rewrite (emplace_present _ _ _ _ Htbl).
    + by rewrite lookup_emplace_ne.
Qed.

Lemma fill_names_finds gate_names tbl name gate_op :
  NoDup gate_names.*2 →
  (gate_op, name) ∈ gate_names →
  tbl !! name = None →
  fill_names gate_names tbl !! name = Some gate_op.
Proof.
  revert tbl. induction gate_names as [|[op nm] rest IH];
    intros tbl Hnodup Hin Htbl.
  - by apply elem_of_nil in Hin.
  - cbn in Hnodup. apply NoDup_cons in Hnodup as [Hfresh Hnodup].
    apply elem_of_cons in Hin as [Heq|Hin]; cbn.
    + injection Heq as <- <-. apply fill_names_keeps.
      rewrite emplace_absent by done. apply lookup_insert_eq.
    + apply IH; [done..|].
      rewrite lookup_emplace_ne; [done|].
      intros ->. apply Hfresh.
      apply list_elem_of_fmap. by exists (gate_op, name).
Qed.

Lemma ctor_resolves gate_names gate_op name :
  NoDup gate_names.*2 →
  (gate_op, name) ∈ gate_names →
  str_to_gates_ (DynamicDispatcher_ctor gate_names : Dispatcher) !! name
  = Some gate_op.
Proof. intros Hnodup Hin. by apply (fill_names_finds gate_names ∅). Qed.

(** Registrations never touch the name table. *)
Lemma configured_names gate_names d :
  configured gate_names d →
  str_to_gates_ d
  = str_to_gates_ (DynamicDispatcher_ctor gate_names : Dispatcher).
Proof. induction 1; done. Qed.

Lemma configured_resolves gate_names d gate_op name :
  NoDup gate_names.*2 →
  configured gate_names d →
  (gate_op, name) ∈ gate_names →
  str_to_gates_ d !! name = Some gate_op.
Proof.
  intros Hnodup Hcfg Hin.
  rewrite (configured_names _ _ Hcfg). by apply ctor_resolves.
Qed.

Lemma lookup_first_occurrence gate_names gate_op name :
  NoDup gate_names.*1 →
  (gate_op, name) ∈ gate_names →
  Util.lookup gate_names gate_op = Some name.
Proof.
  induction gate_names as [|[op nm] rest IH]; intros Hnodup Hin.
  - by apply elem_of_nil in Hin.
  - cbn in Hnodup. apply NoDup_cons in Hnodup as [Hfresh Hnodup]. cbn.
    apply elem_of_cons in Hin as [Heq|Hin].
    + injection Heq as <- <-. by rewrite decide_True.
    + rewrite decide_False; [by apply IH|].
      intros ->. apply Hfresh.
      apply list_elem_of_fmap. by exists (gate_op, name).
Qed.

(** *** Registration *)

Lemma registerGateOperation_registered d gate_op kernel func old :
  gates_ d !! (gate_op, kernel) = Some old →
  registerGateOperation gate_op kernel func d = d.
Proof.
  intros Hold. destruct d as [names gs gn ms]. cbn in *.
  unfold registerGateOperation; cbn. by rewrite (emplace_present _ _ _ _ Hold).
Qed.

Lemma registerGeneratorOperation_registered d gntr_op kernel func old :
  generators_ d !! (gntr_op, kernel) = Some old →
  registerGeneratorOperation gntr_op kernel func d = d.
Proof.
  intros Hold. destruct d as [names gs gn ms]. cbn in *.
  unfold registerGeneratorOperation; cbn.
  by rewrite (emplace_present _ _ _ _ Hold).
Qed.

Lemma registerMatrixOperation_registered d mat_op kernel func old :
  matrices_ d !! (mat_op, kernel) = Some old →
  registerMatrixOperation mat_op kernel func d = d.
Proof.
  intros Hold. destruct d as [names gs gn ms]. cbn in *.
  unfold registerMatrixOperation; cbn.
  by rewrite (emplace_present _ _ _ _ Hold).
Qed.

(** C10.  In each of the three registries, registering a callable under a
    key that already holds one changes nothing: the dispatcher that
    [registerGateOperation], [registerGeneratorOperation] or
    [registerMatrixOperation] leaves behind is the dispatcher it was given,
    so the callable registered first is the one that is looked up, reported
    by [isRegistered] and invoked by [applyOperation], [applyGenerator] and
    [applyMatrix], whatever callable the later call passes.  Registration
    has no failure outcome. *)
Theorem register_again_keeps_first gate_names generator_names NDEBUG d kernel :
  (∀ gate_op (first later : GateFunc PrecisionT CFP_t),
     gates_ d !! (gate_op, kernel) = Some first →
     let d' := registerGateOperation gate_op kernel later d in
     d' = d
     ∧ gates_ d' !! (gate_op, kernel) = Some first
     ∧ ∀ num_qubits wires inverse params data,
         applyOperation_op gate_names d' kernel num_qubits gate_op wires
           inverse params data
         = first num_qubits wires inverse params data)
  ∧ (∀ gntr_op (first later : GeneratorFunc PrecisionT CFP_t),
     generators_ d !! (gntr_op, kernel) = Some first →
     let d' := registerGeneratorOperation gntr_op kernel later d in
     d' = d
     ∧ generators_ d' !! (gntr_op, kernel) = Some first
     ∧ ∀ num_qubits wires adj data,
         applyGenerator_op generator_names d' kernel num_qubits gntr_op
           wires adj data
         = first num_qubits wires adj data)
  ∧ (∀ mat_op (first later : MatrixFunc CFP_t),
     matrices_ d !! (mat_op, kernel) = Some first →
     let d' := registerMatrixOperation mat_op kernel later d in
     d' = d
     ∧ matrices_ d' !! (mat_op, kernel) = Some first
     ∧ ∀ num_qubits matrix wires inverse data,
         matrix_class (length wires) = mat_op →
         length wires ≤ num_qubits →
         applyMatrix_ptr NDEBUG d' kernel num_qubits matrix wires inverse data
         = first num_qubits matrix wires inverse data).
Proof.
  split; [|split].
  - intros gate_op first later Hfirst d'. subst d'.
    rewrite (registerGateOperation_registered _ _ _ _ _ Hfirst).
    split; [done|]. split; [done|]. intros.
    unfold applyOperation_op. by rewrite Hfirst.
  - intros gntr_op first later Hfirst d'. subst d'.
    rewrite (registerGeneratorOperation_registered _ _ _ _ _ Hfirst).
    split; [done|]. split; [done|]. intros.
    unfold applyGenerator_op. by rewrite Hfirst.
  - intros mat_op first later Hfirst d'. subst d'.
    rewrite (registerMatrixOperation_registered _ _ _ _ _ Hfirst).
    split; [done|]. split; [done|]. intros ????? Hclass Hle.
    unfold applyMatrix_ptr, c_assert.
    rewrite Hclass, bool_decide_true by done.
    destruct NDEBUG; cbn; by rewrite Hfirst.
Qed.

(** A registration under a key, whatever came before, makes every later
    registration under that key a no-op. *)
Lemma registerGateOperation_twice d gate_op kernel (f g : GateFunc PrecisionT CFP_t) :
  let d1 := registerGateOperation gate_op kernel f d in
  registerGateOperation gate_op kernel g d1 = d1.
Proof.
  cbn. destruct (lookup_emplace_is_Some (gate_op, kernel) f (gates_ d))
    as [old Hold].
  by eapply registerGateOperation_registered.
Qed.

(** *** Dispatch of a single gate *)

Lemma applyOperation_name_unknown d kernel num_qubits op_name wires inverse
    params data :
  str_to_gates_ d !! op_name = None →
  applyOperation_name d kernel num_qubits op_name wires inverse params data
  = Thrown out_of_range data.
Proof.
  intros Hname. unfold applyOperation_name, strToGateOp, bind.
  by rewrite Hname.
Qed.

Lemma applyOperation_name_resolved d kernel num_qubits op_name gate_op wires
    inverse params data :
  str_to_gates_ d !! op_name = Some gate_op →
  applyOperation_name d kernel num_qubits op_name wires inverse params data
  = match gates_ d !! (gate_op, kernel) with
    | None => throw (invalid_argument (not_registered op_name))
    | Some func => func num_qubits wires inverse params
    end data.
Proof.
  intros Hname. unfold applyOperation_name, strToGateOp, bind.
  by rewrite Hname.
Qed.

(** C2.  When no kernel is registered for the pair of the requested gate
    and kernel variant, [applyOperation] throws and the buffer is as it was:
    the overload taking the gate identifier throws the exception built for
    that gate, and the overload taking a name that stands for the gate
    throws [invalid_argument] with the message naming it.  A kernel
    registered for the same gate under another variant is not used
    instead: with it in the registry the call throws all the same. *)
Theorem applyOperation_unregistered gate_names d kernel gate_op num_qubits
    wires inverse params data :
  gates_ d !! (gate_op, kernel) = None →
  applyOperation_op gate_names d kernel num_qubits gate_op wires inverse
    params data
  = Thrown (named_error gate_names gate_op not_registered) data
  ∧ (∀ op_name,
       str_to_gates_ d !! op_name = Some gate_op →
       applyOperation_name d kernel num_qubits op_name wires inverse params
         data
       = Thrown (invalid_argument (not_registered op_name)) data)
  ∧ (∀ kernel' (other : GateFunc PrecisionT CFP_t),
       kernel' ≠ kernel →
       let d' := registerGateOperation gate_op kernel' other d in
       applyOperation_op gate_names d' kernel num_qubits gate_op wires
         inverse params data
       = Thrown (named_error gate_names gate_op not_registered) data
       ∧ ∀ op_name,
           str_to_gates_ d !! op_name = Some gate_op →
           applyOperation_name d' kernel num_qubits op_name wires inverse
             params data
           = Thrown (invalid_argument (not_registered op_name)) data).
Proof.
  intros Hnone.
  assert (∀ d0 : Dispatcher,
            gates_ d0 !! (gate_op, kernel) = None →
            applyOperation_op gate_names d0 kernel num_qubits gate_op wires
              inverse params data
            = Thrown (named_error gate_names gate_op not_registered) data)
    as Hop.
  { intros d0 H0. unfold applyOperation_op. by rewrite H0. }
  assert (∀ (d0 : Dispatcher) op_name,
            gates_ d0 !! (gate_op, kernel) = None →
            str_to_gates_ d0 !! op_name = Some gate_op →
            applyOperation_name d0 kernel num_qubits op_name wires inverse
              params data
            = Thrown (invalid_argument (not_registered op_name)) data)
    as Hname.
  { intros d0 op_name H0 Hres.
    rewrite (applyOperation_name_resolved _ _ _ _ _ _ _ _ _ Hres).
    by rewrite H0. }
  split; [by apply Hop|]. split; [intros; by apply Hname|].
  intros kernel' other Hne d'.
  assert (gates_ d' !! (gate_op, kernel) = None) as Hnone'.
  { subst d'. cbn. rewrite lookup_emplace_ne; [done|]. congruence. }
  split; [by apply Hop|]. intros; by apply Hname.
Qed.

(** C8.  In a dispatcher made by the constructor and filled by
    registrations, with a name table in which no name occurs twice, a gate
    registered for a kernel variant is dispatched to the same registered
    callable whether it is requested by its name or by its identifier: both
    calls are that callable run on the arguments, hence their outcomes and
    resulting buffers are equal. *)
Theorem applyOperation_name_agrees_with_op gate_names d kernel gate_op op_name
    (func : GateFunc PrecisionT CFP_t) num_qubits wires inverse params data :
  NoDup gate_names.*2 →
  configured gate_names d →
  (gate_op, op_name) ∈ gate_names →
  gates_ d !! (gate_op, kernel) = Some func →
  applyOperation_name d kernel num_qubits op_name wires inverse params data
  = func num_qubits wires inverse params data
  ∧ applyOperation_op gate_names d kernel num_qubits gate_op wires inverse
      params data
    = func num_qubits wires inverse params data.
Proof.
  intros Hnodup Hcfg Hin Hfunc. split.
  - rewrite (applyOperation_name_resolved _ _ _ _ gate_op).
    + by rewrite Hfunc.
    + by eapply configured_resolves.
  - unfold applyOperation_op. by rewrite Hfunc.
Qed.

(** Without a registered kernel the two overloads also throw the same
    exception, provided no identifier occurs twice in the table either. *)
Lemma applyOperation_name_agrees_unregistered gate_names d kernel gate_op
    op_name num_qubits wires inverse params data :
  NoDup gate_names.*1 →
  NoDup gate_names.*2 →
  configured gate_names d →
  (gate_op, op_name) ∈ gate_names →
  gates_ d !! (gate_op, kernel) = None →
  applyOperation_name d kernel num_qubits op_name wires inverse params data
  = applyOperation_op gate_names d kernel num_qubits gate_op wires inverse
      params data.
Proof.
  intros Hids Hnames Hcfg Hin Hnone.
  rewrite (applyOperation_name_resolved _ _ _ _ gate_op)
    by by eapply configured_resolves.
  unfold applyOperation_op, named_error.
  by rewrite Hnone, (lookup_first_occurrence _ _ _ Hids Hin).
Qed.

(** *** Dense matrices *)

Lemma exp2_double k : Util.exp2 (2 * k) = 4 ^ k.
Proof. unfold Util.exp2. by rewrite Nat.pow_mul_r. Qed.

(** C6, as amended.  The overload of [applyMatrix] that takes the matrix
    as a [std::vector] throws [invalid_argument] whenever the vector does
    not hold exactly [4^k] entries for [k] wires, and the buffer is as it
    was. *)
Theorem applyMatrix_vec_wrong_size NDEBUG d kernel num_qubits
    (matrix : list CFP_t) wires inverse data :
  length matrix ≠ 4 ^ length wires →
  applyMatrix_vec NDEBUG d kernel num_qubits matrix wires inverse data
  = Thrown (invalid_argument wrong_matrix_size) data.
Proof.
  intros Hsize. unfold applyMatrix_vec.
  rewrite exp2_double. by rewrite (bool_decide_true _ Hsize).
Qed.

(** The overload taking a bare pointer has no size to compare: a registered
    kernel is run on whatever the pointer leads to. *)
Lemma applyMatrix_ptr_registered NDEBUG d kernel num_qubits
    (matrix : list CFP_t) wires inverse data (func : MatrixFunc CFP_t) :
  length wires ≤ num_qubits →
  matrices_ d !! (matrix_class (length wires), kernel) = Some func →
  applyMatrix_ptr NDEBUG d kernel num_qubits matrix wires inverse data
  = func num_qubits matrix wires inverse data.
Proof.
  intros Hle Hfunc. unfold applyMatrix_ptr, c_assert.
  rewrite bool_decide_true by done.
  destruct NDEBUG; cbn; by rewrite Hfunc.
Qed.

Lemma applyMatrix_vec_right_size NDEBUG d kernel num_qubits
    (matrix : list CFP_t) wires inverse data :
  length matrix = 4 ^ length wires →
  applyMatrix_vec NDEBUG d kernel num_qubits matrix wires inverse data
  = applyMatrix_ptr NDEBUG d kernel num_qubits matrix wires inverse data.
Proof.
  intros Hsize. unfold applyMatrix_vec.
  rewrite exp2_double. by rewrite bool_decide_false by (intros ?; done).
Qed.

End DynamicDispatcher_properties.

(** *** Concrete runs of the dispatcher *)

Lemma sample_dispatcher_configured :
  configured sample_gate_names sample_dispatcher.
Proof. unfold sample_dispatcher. repeat constructor. Qed.

Lemma sample_names_NoDup : NoDup sample_gate_names.*2.
Proof. by apply (bool_decide_unpack _). Qed.

Lemma register_again_keeps_first_witness :
  gates_ sample_dispatcher !! (PauliX, KernelType.LM) = Some sample_flip
  ∧ registerGateOperation PauliX KernelType.LM
      (λ _ _ _ _ data, Returned tt data) sample_dispatcher
    = sample_dispatcher.
Proof.
  assert (gates_ sample_dispatcher !! (PauliX, KernelType.LM)
          = Some sample_flip) as Hreg by reflexivity.
  split; [exact Hreg|].
  exact (proj1 (proj1 (register_again_keeps_first sample_gate_names [] false
                         sample_dispatcher KernelType.LM)
                  PauliX sample_flip _ Hreg)).
Defined.

Lemma applyOperation_unregistered_witness :
  gates_ sample_dispatcher !! (PauliX, KernelType.PI) = None
  ∧ applyOperation_op sample_gate_names sample_dispatcher KernelType.PI 1
      PauliX [0] false [] [1; 0]%Z
    = Thrown (invalid_argument
                "The gate PauliX is not registered for the given kernel")
        [1; 0]%Z.
Proof.
  assert (gates_ sample_dispatcher !! (PauliX, KernelType.PI) = None)
    as Hnone by reflexivity.
  split; [exact Hnone|].
  exact (proj1 (applyOperation_unregistered sample_gate_names
                  sample_dispatcher KernelType.PI PauliX 1 [0] false []
                  [1; 0]%Z Hnone)).
Defined.

(** The same request by name: the [LM] kernel registered for the gate is
    not run in place of the missing [PI] one. *)
Example applyOperation_name_unregistered_sample :
  applyOperation_name sample_dispatcher KernelType.PI 1 "PauliX" [0] false []
    [1; 0]%Z
  = Thrown (invalid_argument
              "The gate PauliX is not registered for the given kernel")
      [1; 0]%Z.
Proof. reflexivity. Qed.

Lemma applyOperation_name_agrees_with_op_witness :
  applyOperation_name sample_dispatcher KernelType.LM 1 "PauliX" [0] false []
    [1; 0]%Z
  = Returned tt [0; 1]%Z
  ∧ applyOperation_op sample_gate_names sample_dispatcher KernelType.LM 1
      PauliX [0] false [] [1; 0]%Z
    = Returned tt [0; 1]%Z.
Proof.
  refine (applyOperation_name_agrees_with_op sample_gate_names
            sample_dispatcher KernelType.LM PauliX "PauliX" sample_flip 1 [0]
            false [] [1; 0]%Z sample_names_NoDup sample_dispatcher_configured
            _ _).
  - unfold sample_gate_names. set_solver.
  - reflexivity.
Defined.

(** C6 as stated fails for the overload taking a bare pointer: five
    entries are supplied for one wire, no error is reported and the
    registered kernel rewrites the buffer. *)
Lemma applyMatrix_ptr_size_unchecked :
  length [2; 0; 0; 2; 9]%Z ≠ 4 ^ length [0]
  ∧ applyMatrix_ptr false sample_dispatcher KernelType.LM 1
      [2; 0; 0; 2; 9]%Z [0] false [1; 0]%Z
    = Returned tt [2; 0]%Z.
Proof. split; [cbn; lia | reflexivity]. Qed.

Lemma applyMatrix_vec_wrong_size_witness :
  length [2; 0; 0; 2; 9]%Z ≠ 4 ^ length [0]
  ∧ applyMatrix_vec false sample_dispatcher KernelType.LM 1
      [2; 0; 0; 2; 9]%Z [0] false [1; 0]%Z
    = Thrown (invalid_argument wrong_matrix_size) [1; 0]%Z.
Proof.
  assert (length [2; 0; 0; 2; 9]%Z ≠ 4 ^ length [0]) as Hsize
    by (cbn; lia).
  split; [exact Hsize|].
  exact (applyMatrix_vec_wrong_size false sample_dispatcher KernelType.LM 1
           [2; 0; 0; 2; 9]%Z [0] false [1; 0]%Z Hsize).
Defined.

(** ** The managed state vector *)

Section StateVectorLQubitManaged_properties.

Context {PrecisionT : Type} `{!Scalar PrecisionT}.

Implicit Types (sv : @StateVectorLQubitManaged PrecisionT).

(** The buffer [setBasisState] is meant to leave behind. *)
Lemma basis_buffer_lookup (len index i : nat) :
  index < len →
  i < len →
  <[index := (fone, fzero)]> (replicate len (fzero, fzero)) !! i
  = Some (if decide (i = index) then (fone, fzero) else (fzero, fzero)
          : ComplexT).
Proof.
  intros Hindex Hi. destruct (decide (i = index)) as [->|Hne].
  - apply list_lookup_insert_eq. by rewrite length_replicate.
  - rewrite list_lookup_insert_ne by done. by apply lookup_replicate_2.
Qed.

Lemma setBasisState_in_range sv index :
  index < length (data_ sv) →
  setBasisState index sv
  = Returned tt
      (mkStateVector (num_qubits_ sv)
         (<[index := (fone, fzero)]>
            (replicate (length (data_ sv)) (fzero, fzero)))).
Proof.
  intros Hlt. unfold setBasisState, bind, get. cbn.
  rewrite length_replicate. by rewrite decide_True.
Qed.

Lemma setBasisState_out_of_range sv index :
  length (data_ sv) ≤ index →
  setBasisState index sv = Undefined.
Proof.
  intros Hge. unfold setBasisState, bind, get. cbn.
  rewrite length_replicate. rewrite decide_False; [done | lia].
Qed.

(** C7, as amended.  On a state vector whose buffer has [2^n] amplitudes,
    [setBasisState(index)] makes no range check.  For [index < 2^n] it
    returns with [(1,0)] at [index] and [(0,0)] elsewhere.  For
    [index >= 2^n] nothing is reported to the caller: after the buffer is
    filled with zeros the store through [data_[index]] falls outside the
    buffer, which is undefined behaviour. *)
Theorem setBasisState_unchecked n sv index :
  length (data_ sv) = 2 ^ n →
  (index < 2 ^ n →
   ∃ sv', setBasisState index sv = Returned tt sv'
          ∧ length (data_ sv') = 2 ^ n
          ∧ ∀ i, i < 2 ^ n →
              data_ sv' !! i
              = Some (if decide (i = index) then (fone, fzero)
                      else (fzero, fzero)))
  ∧ (2 ^ n ≤ index → setBasisState index sv = Undefined).
Proof.
  intros Hlen. split.
  - intros Hlt. eexists. split.
    + apply setBasisState_in_range. by rewrite Hlen.
    + cbn. rewrite length_insert, length_replicate. split; [done|].
      intros i Hi. rewrite Hlen. by apply basis_buffer_lookup.
  - intros Hge. apply setBasisState_out_of_range. by rewrite Hlen.
Qed.

(** Lengths against the greatest value of a [std::size_t] of [w] bits. *)
Lemma exp2_fits (n w : nat) : n < w → 2 ^ n ≤ 2 ^ w - 1.
Proof.
  intros Hlt. pose proof (Nat.pow_lt_mono_r 2 n w) as Hpow. lia.
Qed.

Lemma exp2_overflows (n w : nat) : w ≤ n → 2 ^ w - 1 < 2 ^ n.
Proof.
  intros Hle. pose proof (Nat.pow_le_mono_r 2 w n) as Hpow.
  assert (2 ^ w ≠ 0) by (apply Nat.pow_nonzero; lia). lia.
Qed.

(** The constructor makes no state vector of more amplitudes than the
    buffer may have or the allocator can give. *)
Lemma ctor_no_room {St} max_size available (n : nat) (s : St) :
  (max_size < 2 ^ n →
   StateVectorLQubitManaged_ctor max_size available n s
   = Thrown length_error s)
  ∧ (2 ^ n ≤ max_size → available < 2 ^ n →
     StateVectorLQubitManaged_ctor max_size available n s
     = Thrown bad_alloc s).
Proof.
  unfold StateVectorLQubitManaged_ctor, vector_ctor, Util.exp2, bind.
  split.
  - intros Hmax. by rewrite decide_True.
  - intros Hmax Havailable.
    rewrite decide_False by lia. by rewrite decide_True.
Qed.

(** Whatever [max_size()] is, there is a number of qubits, at least one,
    for which the constructor throws. *)
Lemma ctor_fails_for_some_n {St} max_size available (s : St) :
  ∃ n, 1 ≤ n
       ∧ StateVectorLQubitManaged_ctor max_size available n s
         = Thrown length_error s.
Proof.
  exists (S max_size). split; [lia|].
  apply ctor_no_room.
  pose proof (Nat.pow_gt_lin_r 2 (S max_size)). lia.
Qed.

(** C9, as amended.  For every [n] such that a vector of [2^n] amplitudes is
    within [max_size()] and within what the allocator can give, the
    constructor taking the number [n] of qubits returns a state vector of
    [n] qubits whose buffer has exactly [2^n] amplitudes, [(1,0)] at index
    0 and [(0,0)] at every other index. *)
Theorem ctor_basis_state {St} max_size available (n : nat) (s : St) :
  2 ^ n ≤ max_size →
  2 ^ n ≤ available →
  ∃ sv, StateVectorLQubitManaged_ctor max_size available n s = Returned sv s
        ∧ num_qubits_ sv = n
        ∧ length (data_ sv) = 2 ^ n
        ∧ data_ sv !! 0 = Some (fone, fzero)
        ∧ ∀ i, 0 < i < 2 ^ n → data_ sv !! i = Some (fzero, fzero).
Proof.
  intros Hmax Havailable.
  assert (0 < 2 ^ n) as Hpos by (apply Nat.neq_0_lt_0, Nat.pow_nonzero; lia).
  eexists. split.
  - unfold StateVectorLQubitManaged_ctor, vector_ctor, Util.exp2, bind.
    rewrite !decide_False by lia. unfold ret, with_local.
    rewrite setBasisState_in_range; [done|].
    cbn. by rewrite length_replicate.
  - cbn. rewrite length_insert, !length_replicate.
    split; [done|]. split; [done|]. split.
    + by rewrite basis_buffer_lookup.
    + intros i [Hi0 Hi]. rewrite basis_buffer_lookup by done.
      rewrite decide_False; [done | lia].
Qed.

End StateVectorLQubitManaged_properties.

Lemma setBasisState_unchecked_witness :
  setBasisState 2 (mkStateVector 1 [(1, 0); (0, 0)]%Z) = Undefined.
Proof.
  exact (proj2 (setBasisState_unchecked 1
                  (mkStateVector 1 [(1, 0); (0, 0)]%Z) 2 eq_refl)
           (le_n 2)).
Defined.

(** C7 as stated fails: with two amplitudes and index 2 no exception
    reaches the caller. *)
Lemma setBasisState_reports_nothing :
  length (data_ (mkStateVector 1 [(1, 0); (0, 0)]%Z)) = 2 ^ 1
  ∧ 2 ^ 1 ≤ 2
  ∧ ¬ ∃ e sv', setBasisState 2 (mkStateVector 1 [(1, 0); (0, 0)]%Z)
               = Thrown e sv'.
Proof.
  split; [reflexivity|]. split; [cbn; lia|].
  intros (e & sv' & Hthrown). discriminate Hthrown.
Qed.

Lemma ctor_basis_state_witness :
  ∃ sv : @StateVectorLQubitManaged Z,
    StateVectorLQubitManaged_ctor (2 ^ 64 - 1) (2 ^ 64 - 1) 2 tt
    = Returned sv tt
    ∧ num_qubits_ sv = 2
    ∧ length (data_ sv) = 2 ^ 2
    ∧ data_ sv !! 0 = Some (1, 0)%Z
    ∧ ∀ i, 0 < i < 2 ^ 2 → data_ sv !! i = Some (0, 0)%Z.
Proof.
  refine (ctor_basis_state (PrecisionT := Z) (2 ^ 64 - 1) (2 ^ 64 - 1) 2 tt
            _ _); apply exp2_fits; lia.
Defined.

(** C9 as stated fails: with a [std::size_t] of 64 bits no vector has
    [2^64] elements, and for 64 qubits the constructor throws. *)
Lemma ctor_sixty_four_qubits :
  StateVectorLQubitManaged_ctor (PrecisionT := Z) (2 ^ 64 - 1) (2 ^ 64 - 1)
    64 tt
  = Thrown length_error tt.
Proof.
  apply (proj1 (ctor_no_room (PrecisionT := Z) (2 ^ 64 - 1) (2 ^ 64 - 1) 64
                  tt)).
  by apply exp2_overflows.
Qed.

Example ctor_two_qubits :
  StateVectorLQubitManaged_ctor 4 4 2 tt
  = Returned (mkStateVector 2 [(1, 0); (0, 0); (0, 0); (0, 0)]%Z) tt
  ∧ StateVectorLQubitManaged_ctor (PrecisionT := Z) 3 4 2 tt
    = Thrown length_error tt
  ∧ StateVectorLQubitManaged_ctor (PrecisionT := Z) 4 3 2 tt
    = Thrown bad_alloc tt.
Proof. repeat split. Qed.

(** ** Vector-Jacobian products *)

Section VectorJacobianProduct_properties.

Context {T : Type} `{!Scalar T}.

Implicit Types (jac : list (list T)) (row dy res flat : list T).

(** *** Sums *)

Lemma foldl_sum_ext (f g : nat → T) n :
  ∀ lo acc,
    (∀ i, lo ≤ i < lo + n → f i = g i) →
    foldl (λ acc i, fadd acc (f i)) acc (seq lo n)
    = foldl (λ acc i, fadd acc (g i)) acc (seq lo n).
Proof.
  induction n as [|n IH]; intros lo acc Hfg; [done|].
  cbn. rewrite (Hfg lo) by lia. apply IH. intros i Hi. apply Hfg. lia.
Qed.

Lemma big_sum_ext (f g : nat → T) n :
  (∀ i, i < n → f i = g i) → big_sum n f = big_sum n g.
Proof.
  intros Hfg. apply foldl_sum_ext. intros i Hi. apply Hfg. lia.
Qed.

(** *** The row-major copy *)

Lemma getRowMajor_step_writes jac i j row x done y rest :
  jac !! i = Some row →
  row !! j = Some x →
  getRowMajor_step jac i j (done ++ y :: rest, length done)
  = Returned tt ((done ++ [x]) ++ rest, length (done ++ [x])).
Proof.
  intros Hrow Hx. unfold getRowMajor_step, bind, get, vec_at. cbn.
  rewrite Hrow. cbn. rewrite Hx. cbn.
  rewrite decide_True by (rewrite length_app; cbn; lia).
  unfold put. rewrite <- (Nat.add_0_r (length done)) at 1.
  rewrite insert_app_r. cbn.
  by rewrite <- app_assoc, length_app, Nat.add_1_r.
Qed.

(** The inner loop copies what is left of row [i] behind what has been
    written so far. *)
Lemma getRowMajor_copies_row jac i row :
  jac !! i = Some row →
  ∀ todo pre done rest,
    row = pre ++ todo →
    length todo ≤ length rest →
    for_loop (length pre) (length todo) (getRowMajor_step jac i)
      (done ++ rest, length done)
    = Returned tt (done ++ todo ++ drop (length todo) rest,
                   length done + length todo).
Proof.
  intros Hrow. induction todo as [|x todo IH]; intros pre done rest -> Hlen.
  - cbn. by rewrite Nat.add_0_r.
  - destruct rest as [|y rest]; [cbn in Hlen; lia|].
    cbn [length for_loop]. unfold bind at 1.
    rewrite (getRowMajor_step_writes _ _ _ _ x _ _ _ Hrow)
      by (rewrite lookup_app_r, Nat.sub_diag by done; done).
    replace (S (length pre)) with (length (pre ++ [x]))
      by (rewrite length_app; cbn; lia).
    rewrite (IH (pre ++ [x]) (done ++ [x]) rest).
    + cbn. rewrite <- !app_assoc, length_app. cbn.
      do 2 f_equal. lia.
    + by rewrite <- app_assoc.
    + cbn in Hlen. lia.
Qed.

(** The two loops copy the rows that are left, one after the other. *)
Lemma getRowMajor_copies_rows jac c :
  Forall (λ row, length row = c) jac →
  ∀ todo pre done rest,
    jac = pre ++ todo →
    length (mjoin todo) ≤ length rest →
    for_loop (length pre) (length todo)
      (λ i, for_loop 0 c (getRowMajor_step jac i))
      (done ++ rest, length done)
    = Returned tt (done ++ mjoin todo ++ drop (length (mjoin todo)) rest,
                   length done + length (mjoin todo)).
Proof.
  intros Hrows.
  induction todo as [|row todo IH]; intros pre done rest Hjac Hlen.
  - cbn. by rewrite Nat.add_0_r.
  - assert (jac !! length pre = Some row) as Hrow.
    { rewrite Hjac, lookup_app_r, Nat.sub_diag by done. done. }
    assert (length row = c) as Hc.
    { by apply (Forall_lookup_1 _ _ _ _ Hrows Hrow). }
    subst c. change (mjoin (row :: todo)) with (row ++ mjoin todo) in *.
    cbn [length for_loop].
    rewrite length_app in Hlen.
    pose proof (getRowMajor_copies_row _ _ _ Hrow row [] done rest eq_refl)
      as Hinner.
    cbn [length] in Hinner.
    unfold bind at 1. rewrite Hinner by lia.
    replace (S (length pre)) with (length (pre ++ [row]))
      by (rewrite length_app; cbn; lia).
    rewrite app_assoc, <- (length_app done row).
    rewrite (IH (pre ++ [row]) (done ++ row) (drop (length row) rest)).
    + rewrite drop_drop, !length_app, <- !app_assoc.
      by rewrite Nat.add_assoc.
    + by rewrite <- app_assoc.
    + rewrite length_drop. lia.
Qed.

Lemma length_join_rows jac c :
  Forall (λ row, length row = c) jac → length (mjoin jac) = length jac * c.
Proof.
  induction 1 as [|row jac Hrow _ IH]; [done|].
  change (mjoin (row :: jac)) with (row ++ mjoin jac).
  by rewrite length_app, IH, Hrow.
Qed.

(** On a result vector of the right size [getRowMajor] leaves the rows of
    the Jacobian one after the other. *)
Lemma getRowMajor_flattens jac c res :
  jac ≠ [] →
  Forall (λ row, length row = c) jac →
  length res = length jac * c →
  getRowMajor jac (length jac * c) res = Returned tt (mjoin jac).
Proof.
  intros Hne Hrows Hres. destruct jac as [|front rows]; [done|].
  unfold getRowMajor.
  assert (length front = c) as -> by by inv Hrows.
  set (r_len := length (front :: rows)) in *.
  assert ((if decide (r_len * c ≠ 0) then r_len * c else r_len * c)
          = r_len * c) as -> by by destruct (decide _).
  unfold bind at 1. unfold get.
  rewrite decide_False by (intros ?; done).
  unfold bind, ret, zoom.
  pose proof (getRowMajor_copies_rows (front :: rows) c Hrows
                (front :: rows) [] [] res eq_refl) as Hloop.
  rewrite (length_join_rows _ _ Hrows) in Hloop. fold r_len in Hloop.
  cbn [length app] in Hloop. rewrite Hloop by by rewrite Hres.
  cbn [fst]. rewrite drop_ge by by rewrite Hres. by rewrite app_nil_r.
Qed.

Lemma nth_join_rows jac c i j :
  Forall (λ row, length row = c) jac →
  i < length jac →
  j < c →
  nth (i * c + j) (mjoin jac) fzero = nth j (nth i jac []) fzero.
Proof.
  intros Hrows Hi Hj.
  destruct (lookup_lt_is_Some_2 jac i Hi) as [row Hrow].
  assert (length row = c) as Hc by by apply (Forall_lookup_1 _ _ _ _ Hrows Hrow).
  destruct (lookup_lt_is_Some_2 row j) as [x Hx]; [lia|].
  rewrite (nth_lookup_Some jac i [] row Hrow).
  rewrite (nth_lookup_Some row j fzero x Hx).
  apply nth_lookup_Some.
  apply (join_lookup_Some_same_length' c); [done..|]. by exists row.
Qed.

(** *** [computeVJP] *)

Lemma computeVJP_empty_dy jac vjp0 :
  computeVJP jac [] vjp0 = Returned tt [].
Proof. by destruct jac. Qed.

Lemma computeVJP_wrong_size jac dy vjp0 :
  jac ≠ [] → dy ≠ [] → length dy ≠ length jac →
  computeVJP jac dy vjp0 = Thrown (invalid_argument invalid_dy_size) vjp0.
Proof.
  intros Hjac Hdy Hlen. destruct jac as [|front rows]; [done|].
  destruct dy as [|y dy]; [done|]. unfold computeVJP.
  by rewrite decide_True.
Qed.

Lemma computeVJP_run jac dy c vjp0 :
  jac ≠ [] →
  Forall (λ row, length row = c) jac →
  length dy = length jac →
  computeVJP jac dy vjp0
  = Returned tt
      (map (λ j, big_sum (length jac)
                   (λ i, fmul (nth i dy fzero)
                              (nth (i * c + j) (mjoin jac) fzero)))
           (seq 0 c)).
Proof.
  intros Hjac Hrows Hlen. destruct jac as [|front rows]; [done|].
  destruct dy as [|y dy]; [done|]. unfold computeVJP.
  rewrite decide_False by (intros ?; done).
  assert (length front = c) as -> by by inv Hrows.
  unfold bind, with_local.
  rewrite (getRowMajor_flattens _ c) by (done || by rewrite length_replicate).
  done.
Qed.

(** C3.  For a Jacobian with at least one row, all of whose rows have [c]
    entries, and an upstream gradient with one entry per row, [computeVJP]
    returns and leaves in [vjp] a vector of length [c] whose entry [j] is
    the sum over the rows [i] of [dy[i] * J[i][j]]. *)
Theorem computeVJP_is_contraction jac dy c vjp0 :
  jac ≠ [] →
  Forall (λ row, length row = c) jac →
  length dy = length jac →
  ∃ out, computeVJP jac dy vjp0 = Returned tt out
         ∧ length out = c
         ∧ ∀ j, j < c → out !! j = Some (contraction dy jac j).
Proof.
  intros Hjac Hrows Hlen. eexists. split; [by apply computeVJP_run|].
  split; [by rewrite length_map, length_seq|].
  intros j Hj. rewrite list_lookup_fmap, lookup_seq_lt by done. cbn.
  f_equal. apply big_sum_ext. intros i Hi.
  by rewrite nth_join_rows.
Qed.

(** [getRowMajor] and the product have no exception of their own. *)
Lemma no_throw_getRowMajor jac len : no_throw (getRowMajor jac len).
Proof.
  destruct jac as [|front rows]; [apply no_throw_ret|]. unfold getRowMajor.
  apply no_throw_bind; [by intros s e s'|]. intros res.
  apply no_throw_bind.
  { destruct (decide _); by intros s e s'. }
  intros _. apply no_throw_zoom, no_throw_for_loop. intros i.
  apply no_throw_for_loop. intros j. unfold getRowMajor_step.
  apply no_throw_bind; [by intros s e s'|]. intros st.
  apply no_throw_bind; [apply no_throw_vec_at|]. intros row.
  apply no_throw_bind; [apply no_throw_vec_at|]. intros x.
  destruct (decide _); by intros s e s'.
Qed.

Lemma computeVJP_right_size_no_throw jac dy vjp0 e s :
  length dy = length jac → computeVJP jac dy vjp0 ≠ Thrown e s.
Proof.
  intros Hlen. destruct jac as [|front rows]; [done|].
  destruct dy as [|y dy]; [done|]. unfold computeVJP.
  rewrite decide_False by (intros ?; done).
  apply no_throw_bind.
  - intros s1 e1 s2. unfold with_local.
    destruct (getRowMajor _ _ _) as [a l|e2 l| |] eqn:E; try done.
    by apply no_throw_getRowMajor in E.
  - intros jac_row. by intros s1 e1 s2.
Qed.

(** C4, as amended.  For a Jacobian with at least one row: with an empty
    upstream gradient [computeVJP] reports nothing and empties [vjp]; with a
    non-empty one it throws exactly when the length of [dy] differs from
    the number of rows. *)
Theorem computeVJP_throws_iff jac dy vjp0 :
  jac ≠ [] →
  (dy = [] → computeVJP jac dy vjp0 = Returned tt [])
  ∧ (dy ≠ [] →
     (∃ e s, computeVJP jac dy vjp0 = Thrown e s)
     ↔ length dy ≠ length jac).
Proof.
  intros Hjac. split.
  - intros ->. apply computeVJP_empty_dy.
  - intros Hdy. split.
    + intros (e & s & Hthrown) Hlen.
      by apply (computeVJP_right_size_no_throw jac dy vjp0 e s).
    + intros Hlen. do 2 eexists. by apply computeVJP_wrong_size.
Qed.

(** [_computeVJP] has the same guard, against the row count it is given. *)
Lemma _computeVJP_throws_iff flat dy m n vjp0 :
  flat ≠ [] → dy ≠ [] →
  (∃ e s, _computeVJP flat dy m n vjp0 = Thrown e s) ↔ length dy ≠ m.
Proof.
  intros Hflat Hdy. destruct flat as [|a flat]; [done|].
  destruct dy as [|y dy]; [done|]. unfold _computeVJP.
  destruct (decide _) as [Hne|Heq].
  - split; [done|]. intros _. by do 2 eexists.
  - split; [by intros (e & s & ?)|]. intros Hne. by destruct Heq.
Qed.

(** *** [vectorJacobianProduct] and its shortcuts *)

Lemma length_resize {A} (dflt : A) n (v : list A) :
  length (resize dflt n v) = n.
Proof. unfold resize. rewrite length_app, length_take, length_replicate. lia. Qed.

(** [resize] writes nothing into the elements that are already there. *)
Lemma resize_keeps {A} (dflt : A) n (v : list A) i :
  i < n → i < length v → resize dflt n v !! i = v !! i.
Proof.
  intros Hn Hv. unfold resize.
  rewrite lookup_app_l by (rewrite length_take; lia).
  by rewrite lookup_take_lt.
Qed.

Lemma resize_nil {A} (dflt : A) n : resize dflt n [] = replicate n dflt.
Proof. unfold resize. by rewrite take_nil, Nat.sub_0_r. Qed.

Section tape.

Context {OpsData ObsData : Type}.
Variable adjointJacobianTape :
  GradTapeT OpsData ObsData → bool → M (list (list T)) unit.

Implicit Types (tape : GradTapeT OpsData ObsData) (st : @vjp_store T).

Lemma vectorJacobianProduct_nothing_to_do dy tape apply_operations st :
  trainableParams tape = [] ∨ dy = [] →
  vectorJacobianProduct adjointJacobianTape dy tape apply_operations st
  = Returned tt (mkVjpStore [] (jac st) (adjoint_calls st)).
Proof.
  intros Hnone. unfold vectorJacobianProduct.
  assert (bool_decide (length (trainableParams tape) = 0)
          || bool_decide (dy = []) = true) as ->; [|done].
  destruct Hnone as [->| ->]; [done|]. by rewrite orb_true_r.
Qed.

(** On an upstream gradient that is all zeros [vectorJacobianProduct]
    resizes [vjp] to the number of trainable parameters and returns: the
    Jacobian is left alone and [adjointJacobianTape] is not called. *)
Lemma vectorJacobianProduct_allzero dy tape apply_operations st :
  trainableParams tape ≠ [] →
  dy ≠ [] →
  allzero dy = true →
  vectorJacobianProduct adjointJacobianTape dy tape apply_operations st
  = Returned tt
      (mkVjpStore (resize fzero (length (trainableParams tape)) (vjp st))
         (jac st) (adjoint_calls st)).
Proof.
  intros Htape Hdy Hzero. unfold vectorJacobianProduct.
  rewrite bool_decide_false by by destruct (trainableParams tape).
  rewrite bool_decide_false by done. cbn. by rewrite Hzero.
Qed.

End tape.

End VectorJacobianProduct_properties.

(** *** Concrete runs *)

Example computeVJP_two_by_two :
  computeVJP [[1; 2]; [3; 4]]%Z [5; 6]%Z [0; 0]%Z = Returned tt [23; 34]%Z.
Proof. reflexivity. Qed.

Lemma computeVJP_is_contraction_witness :
  ∃ out, computeVJP [[1; 2]; [3; 4]]%Z [5; 6]%Z [] = Returned tt out
         ∧ length out = 2
         ∧ ∀ j, j < 2 →
             out !! j = Some (contraction [5; 6]%Z [[1; 2]; [3; 4]]%Z j).
Proof.
  apply (computeVJP_is_contraction [[1; 2]; [3; 4]]%Z [5; 6]%Z 2 []).
  - discriminate.
  - repeat constructor.
  - reflexivity.
Defined.

Lemma computeVJP_throws_iff_witness :
  ([5; 6]%Z = [] → computeVJP [[1; 2]]%Z [5; 6]%Z [] = Returned tt [])
  ∧ ([5; 6]%Z ≠ [] →
     (∃ e s, computeVJP [[1; 2]]%Z [5; 6]%Z [] = Thrown e s)
     ↔ length [5; 6]%Z ≠ length [[1; 2]]%Z).
Proof.
  apply (computeVJP_throws_iff [[1; 2]]%Z [5; 6]%Z []). discriminate.
Defined.

(** C4 as stated fails on an empty upstream gradient: its length differs
    from the number of rows and nothing is thrown. *)
Lemma computeVJP_empty_dy_reports_nothing :
  [[1; 2]]%Z ≠ []
  ∧ length ([] : list Z) ≠ length [[1; 2]]%Z
  ∧ computeVJP [[1; 2]]%Z [] [7; 7]%Z = Returned tt [].
Proof. split; [discriminate|]. split; [cbn; lia | reflexivity]. Qed.

(** C1, at a preallocated vector that holds something else than zeros.
    The tape has one trainable parameter and the upstream gradient is the
    single entry 0.  [vectorJacobianProduct] returns without a call to
    [adjointJacobianTape], and [vjp] has the right length, but
    [vjp.resize(num_params)] has left its entry as it was: the result is
    [5], not the zero vector. *)
Theorem vectorJacobianProduct_allzero_stale_vjp
    (adjointJacobianTape : GradTapeT unit unit → bool → M (list (list Z)) unit)
    (apply_operations : bool) :
  vectorJacobianProduct adjointJacobianTape [0%Z] (mkGradTape tt [tt] [0])
    apply_operations (mkVjpStore [5%Z] [[0%Z]] 0)
  = Returned tt (mkVjpStore [5%Z] [[0%Z]] 0).
Proof. reflexivity. Qed.

(** With a gradient that is not all zeros the Jacobian is computed, once,
    and contracted; here [adjointJacobianTape] is a stand-in that writes a
    fixed 2 x 2 Jacobian. *)
Example vectorJacobianProduct_full_sample :
  vectorJacobianProduct (λ _ _ _, Returned tt [[1; 2]; [3; 4]]%Z) [5; 6]%Z
    (mkGradTape tt [tt; tt] [0; 1]) false
    (mkVjpStore [0; 0]%Z [[0; 0]; [0; 0]]%Z 0)
  = Returned tt (mkVjpStore [23; 34]%Z [[1; 2]; [3; 4]]%Z 1).
Proof. reflexivity. Qed.

(** * Further properties *)

(** ** More on the registry and dispatch *)

Lemma lookup_emplace {K V} `{Countable K} (key key' : K) (val : V)
    (tbl : gmap K V) :
  emplace key val tbl !! key'
  = match tbl !! key' with
    | Some old => Some old
    | None => if decide (key = key') then Some val else None
    end.
Proof.
  destruct (decide (key = key')) as [<-|Hne].
  - unfold emplace. destruct (tbl !! key) as [old|] eqn:E.
    + by rewrite E.
    + by rewrite lookup_insert_eq.
  - rewrite lookup_emplace_ne by done. by destruct (tbl !! key').
Qed.

(** [removeGeneratorPrefix], by cases on the name. *)
Lemma rfind_not_prefix pat s :
  String.prefix pat s = false → rfind pat s ≠ Some 0.
Proof.
  intros Hpre. destruct s as [|c s]; cbn in *.
  - by rewrite Hpre.
  - destruct (rfind pat s); [done|]. by rewrite Hpre.
Qed.

Lemma rfind_generator_prefix rest :
  rfind generator_prefix (generator_prefix +:+ rest)
  = match rfind generator_prefix rest with
    | Some i => Some (String.length generator_prefix + i)
    | None => Some 0
    end.
Proof.
  unfold generator_prefix. lazy [String.append]. cbn [rfind].
  destruct (rfind "Generator" rest) as [i|]; [done|].
  destruct rest; reflexivity.
Qed.

Section DynamicDispatcher_more.

Context {PrecisionT CFP_t : Type}.
Context {GateOperation : Type}
  `{!EqDecision GateOperation, !Countable GateOperation}.
Context {GeneratorOperation : Type}
  `{!EqDecision GeneratorOperation, !Countable GeneratorOperation}.

Abbreviation Dispatcher' :=
  (@DynamicDispatcher PrecisionT CFP_t GateOperation _ _
     GeneratorOperation _ _).

Implicit Types (d : Dispatcher') (kernel : KernelType.t).
Implicit Types (gate_names : list (GateOperation * string)).
Implicit Types (generator_names : list (GeneratorOperation * string)).
Implicit Types (data : list CFP_t) (wires : list nat).
Implicit Types (params : list PrecisionT).

(** *** Names *)

Lemma fill_names_lookup {Op} (names : list (Op * string)) :
  ∀ (tbl : gmap string Op) name,
    fill_names names tbl !! name
    = match tbl !! name with
      | Some op => Some op
      | None => Util.lookup (prod_swap <$> names) name
      end.
Proof.
  induction names as [|[op nm] rest IH]; intros tbl name.
  - cbn. by destruct (tbl !! name).
  - change (fill_names ((op, nm) :: rest) tbl)
      with (fill_names rest (emplace nm op tbl)).
    rewrite IH, lookup_emplace. cbn.
    destruct (tbl !! name) as [old|]; [done|].
    by destruct (decide (nm = name)).
Qed.

(** X1.  In a dispatcher made by the constructor and filled by
    registrations, [strToGateOp] resolves a name to the identifier of the
    first entry of [gate_names] carrying that name, and throws
    [out_of_range] exactly for the names that no entry carries. *)
Theorem strToGateOp_first_entry {St} gate_names d name (s : St) :
  configured gate_names d →
  strToGateOp d name s
  = match Util.lookup (prod_swap <$> gate_names) name with
    | Some gate_op => Returned gate_op s
    | None => Thrown out_of_range s
    end.
Proof.
  intros Hcfg. unfold strToGateOp.
  rewrite (configured_names _ _ Hcfg). cbn.
  rewrite fill_names_lookup, lookup_empty.
  by destruct (Util.lookup _ name).
Qed.

(** *** Registration *)

Lemma is_Some_emplace {K V} `{Countable K} (key key' : K) (val : V)
    (tbl : gmap K V) :
  (if emplace key val tbl !! key' is Some _ then true else false)
  = bool_decide (key = key')
    || (if tbl !! key' is Some _ then true else false).
Proof.
  rewrite lookup_emplace. destruct (tbl !! key') as [old|].
  - by rewrite orb_true_r.
  - rewrite orb_false_r.
    case_decide; [by rewrite bool_decide_true | by rewrite bool_decide_false].
Qed.

(** X2.  After a registration [isRegistered] answers true for the key of
    the registration and, for every other key, what it answered before;
    this holds in each of the three registries. *)
Theorem isRegistered_after_register d kernel :
  (∀ gate_op (func : GateFunc PrecisionT CFP_t) gate_op' kernel',
     isRegistered_gate (registerGateOperation gate_op kernel func d)
       gate_op' kernel'
     = bool_decide ((gate_op, kernel) = (gate_op', kernel'))
       || isRegistered_gate d gate_op' kernel')
  ∧ (∀ gntr_op (func : GeneratorFunc PrecisionT CFP_t) gntr_op' kernel',
       isRegistered_generator
         (registerGeneratorOperation gntr_op kernel func d) gntr_op' kernel'
       = bool_decide ((gntr_op, kernel) = (gntr_op', kernel'))
         || isRegistered_generator d gntr_op' kernel')
  ∧ (∀ mat_op (func : MatrixFunc CFP_t) mat_op' kernel',
       isRegistered_matrix (registerMatrixOperation mat_op kernel func d)
         mat_op' kernel'
       = bool_decide ((mat_op, kernel) = (mat_op', kernel'))
         || isRegistered_matrix d mat_op' kernel').
Proof.
  split; [|split]; intros; apply is_Some_emplace.
Qed.

(** X3.  Registering a gate kernel under a key that holds none makes
    [applyOperation] with that key run the kernel; dispatch under every
    other key, and every generator and matrix dispatch, is what it was. *)
Theorem registerGateOperation_then_apply gate_names generator_names NDEBUG d
    kernel gate_op (func : GateFunc PrecisionT CFP_t) :
  gates_ d !! (gate_op, kernel) = None →
  let d' := registerGateOperation gate_op kernel func d in
  (∀ num_qubits wires inverse params data,
     applyOperation_op gate_names d' kernel num_qubits gate_op wires inverse
       params data
     = func num_qubits wires inverse params data)
  ∧ (∀ gate_op' kernel' num_qubits wires inverse params data,
       (gate_op', kernel') ≠ (gate_op, kernel) →
       applyOperation_op gate_names d' kernel' num_qubits gate_op' wires
         inverse params data
       = applyOperation_op gate_names d kernel' num_qubits gate_op' wires
           inverse params data)
  ∧ (∀ kernel' num_qubits gntr_op wires adj data,
       applyGenerator_op generator_names d' kernel' num_qubits gntr_op wires
         adj data
       = applyGenerator_op generator_names d kernel' num_qubits gntr_op
           wires adj data)
  ∧ (∀ kernel' num_qubits matrix wires inverse data,
       applyMatrix_ptr NDEBUG d' kernel' num_qubits matrix wires inverse data
       = applyMatrix_ptr NDEBUG d kernel' num_qubits matrix wires inverse
           data).
Proof.
  intros Hnone d'. subst d'. repeat split.
  - intros. unfold applyOperation_op. cbn.
    by rewrite emplace_absent, lookup_insert_eq.
  - intros gate_op' kernel' ????? Hne. unfold applyOperation_op. cbn.
    by rewrite lookup_emplace_ne.
Qed.

(** X4.  [applyGenerator] by identifier: with no kernel registered for the
    pair of generator and kernel variant it throws and the buffer is as it
    was; once a kernel is registered for the pair, it runs that kernel and
    returns its scale. *)
Theorem applyGenerator_op_unregistered generator_names d kernel gntr_op
    num_qubits wires adj data :
  generators_ d !! (gntr_op, kernel) = None →
  applyGenerator_op generator_names d kernel num_qubits gntr_op wires adj data
  = Thrown (named_error generator_names gntr_op no_such_generator) data
  ∧ ∀ func : GeneratorFunc PrecisionT CFP_t,
      applyGenerator_op generator_names
        (registerGeneratorOperation gntr_op kernel func d) kernel num_qubits
        gntr_op wires adj data
      = func num_qubits wires adj data.
Proof.
  intros Hnone. split.
  - unfold applyGenerator_op. by rewrite Hnone.
  - intros func. unfold applyGenerator_op. cbn.
    by rewrite emplace_absent, lookup_insert_eq.
Qed.

(** *** Dense matrices *)

(** X5.  A matrix kernel registered under a fresh key is the one
    [applyMatrix] runs, by either overload, for a matrix of [4^k] entries
    on [k] wires when [k] is the wire count of the key's class (one wire,
    two wires, any other count) and does not exceed the number of qubits. *)
Theorem registerMatrixOperation_then_apply NDEBUG d kernel num_qubits
    (matrix : list CFP_t) wires inverse data (func : MatrixFunc CFP_t) :
  matrices_ d !! (matrix_class (length wires), kernel) = None →
  length matrix = 4 ^ length wires →
  length wires ≤ num_qubits →
  let d' :=
    registerMatrixOperation (matrix_class (length wires)) kernel func d in
  applyMatrix_vec NDEBUG d' kernel num_qubits matrix wires inverse data
  = func num_qubits matrix wires inverse data
  ∧ applyMatrix_ptr NDEBUG d' kernel num_qubits matrix wires inverse data
    = func num_qubits matrix wires inverse data.
Proof.
  intros Hnone Hsize Hle d'.
  assert (applyMatrix_ptr NDEBUG d' kernel num_qubits matrix wires inverse data
          = func num_qubits matrix wires inverse data) as Hptr.
  { apply applyMatrix_ptr_registered; [done|]. subst d'. cbn.
    by rewrite emplace_absent, lookup_insert_eq. }
  split; [|done]. by rewrite applyMatrix_vec_right_size.
Qed.

(** X6.  With no kernel registered for the class of the wire count,
    [applyMatrix] reports no lookup failure: the message of the exception
    is built from [iter->first] with [iter] the end iterator, so the
    behaviour is undefined.  This is so for the pointer overload, and for
    the vector overload once the size check has passed. *)
Theorem applyMatrix_unregistered_undefined NDEBUG d kernel num_qubits
    (matrix : list CFP_t) wires inverse data :
  matrices_ d !! (matrix_class (length wires), kernel) = None →
  length wires ≤ num_qubits →
  applyMatrix_ptr NDEBUG d kernel num_qubits matrix wires inverse data
  = Undefined
  ∧ (length matrix = 4 ^ length wires →
     applyMatrix_vec NDEBUG d kernel num_qubits matrix wires inverse data
     = Undefined).
Proof.
  intros Hnone Hle.
  assert (applyMatrix_ptr NDEBUG d kernel num_qubits matrix wires inverse data
          = Undefined) as Hptr.
  { unfold applyMatrix_ptr, c_assert. rewrite bool_decide_true by done.
    destruct NDEBUG; cbn; by rewrite Hnone. }
  split; [done|]. intros Hsize. by rewrite applyMatrix_vec_right_size.
Qed.

(** X7.  The only check on the wire count is an [assert]: in a build
    without [NDEBUG], [applyMatrix] on more wires than qubits aborts, by
    either overload and whatever is registered; in a build with [NDEBUG]
    the registered kernel is run on those wires. *)
Theorem applyMatrix_more_wires_than_qubits d kernel num_qubits
    (matrix : list CFP_t) wires inverse data :
  num_qubits < length wires →
  applyMatrix_ptr false d kernel num_qubits matrix wires inverse data
  = Aborted
  ∧ (length matrix = 4 ^ length wires →
     applyMatrix_vec false d kernel num_qubits matrix wires inverse data
     = Aborted)
  ∧ ∀ func : MatrixFunc CFP_t,
      matrices_ d !! (matrix_class (length wires), kernel) = Some func →
      applyMatrix_ptr true d kernel num_qubits matrix wires inverse data
      = func num_qubits matrix wires inverse data.
Proof.
  intros Hlt.
  assert (applyMatrix_ptr false d kernel num_qubits matrix wires inverse data
          = Aborted) as Hptr.
  { unfold applyMatrix_ptr, c_assert.
    rewrite bool_decide_false by lia. done. }
  split; [done|]. split.
  - intros Hsize. by rewrite applyMatrix_vec_right_size.
  - intros func Hfunc. unfold applyMatrix_ptr, c_assert. cbn.
    by rewrite Hfunc.
Qed.

(** *** Generators by name *)

(** X8.  [removeGeneratorPrefix] leaves a name that does not start with
    "Generator" as it is; it strips the prefix from "Generator" followed by
    a rest in which "Generator" does not occur; and, because it tests the
    position of the last occurrence, it leaves the name whole when
    "Generator" occurs again in the rest. *)
Theorem removeGeneratorPrefix_cases name rest :
  (String.prefix generator_prefix name = false →
   removeGeneratorPrefix name = name)
  ∧ (rfind generator_prefix rest = None →
     removeGeneratorPrefix (generator_prefix +:+ rest) = rest)
  ∧ (is_Some (rfind generator_prefix rest) →
     removeGeneratorPrefix (generator_prefix +:+ rest)
     = generator_prefix +:+ rest).
Proof.
  split; [|split].
  - intros Hpre. unfold removeGeneratorPrefix.
    by rewrite decide_True by by apply rfind_not_prefix.
  - intros Hnone. unfold removeGeneratorPrefix.
    rewrite rfind_generator_prefix, Hnone.
    by rewrite decide_False by (intros ?; done).
  - intros [i Hsome]. unfold removeGeneratorPrefix.
    rewrite rfind_generator_prefix, Hsome.
    by rewrite decide_True by done.
Qed.

Lemma str_to_gntrs_ctor_fill generator_names :
  str_to_gntrs_ctor generator_names
  = fill_names
      ((λ entry, (entry.1, removeGeneratorPrefix entry.2))
         <$> generator_names) ∅.
Proof.
  unfold str_to_gntrs_ctor, fill_names.
  generalize (∅ : gmap string GeneratorOperation).
  induction generator_names as [|entry rest IH]; intros tbl; [done|].
  cbn. apply IH.
Qed.

(** X9.  With the name table the constructor fills, in which no stripped
    name occurs twice, a generator registered for a kernel variant is
    dispatched to the same callable whether [applyGenerator] is given its
    name with the prefix "Generator" removed or its identifier. *)
Theorem applyGenerator_name_agrees_with_op generator_names d kernel gntr_op
    gntr_name (func : GeneratorFunc PrecisionT CFP_t) num_qubits wires adj
    data :
  NoDup (removeGeneratorPrefix <$> generator_names.*2) →
  (gntr_op, gntr_name) ∈ generator_names →
  generators_ d !! (gntr_op, kernel) = Some func →
  applyGenerator_name d (str_to_gntrs_ctor generator_names) kernel num_qubits
    (removeGeneratorPrefix gntr_name) wires adj data
  = func num_qubits wires adj data
  ∧ applyGenerator_op generator_names d kernel num_qubits gntr_op wires adj
      data
    = func num_qubits wires adj data.
Proof.
  intros Hnodup Hin Hfunc. split.
  - unfold applyGenerator_name, strToGeneratorOp, bind.
    rewrite str_to_gntrs_ctor_fill.
    rewrite (fill_names_finds _ ∅ _ gntr_op).
    + cbn. by rewrite Hfunc.
    + replace (((λ entry : GeneratorOperation * string,
                   (entry.1, removeGeneratorPrefix entry.2))
                  <$> generator_names).*2)
        with (removeGeneratorPrefix <$> generator_names.*2); [done|].
      clear. induction generator_names as [|entry rest IH]; [done|].
      cbn. by rewrite IH.
    + apply list_elem_of_fmap. by exists (gntr_op, gntr_name).
    + apply lookup_empty.
  - unfold applyGenerator_op. by rewrite Hfunc.
Qed.

(** A name that is in no entry of the table, stripped, is not resolved. *)
Lemma applyGenerator_name_unknown d (tbl : gmap string GeneratorOperation)
    kernel num_qubits op_name wires adj data :
  tbl !! op_name = None →
  applyGenerator_name d tbl kernel num_qubits op_name wires adj data
  = Thrown out_of_range data.
Proof.
  intros Hnone. unfold applyGenerator_name, strToGeneratorOp, bind.
  by rewrite Hnone.
Qed.

End DynamicDispatcher_more.

(** ** More on the managed state vector *)

Section StateVectorLQubitManaged_more.

Context {PrecisionT : Type} `{!Scalar PrecisionT}.

Variable PL_ABORT : ∀ St A : Type, string → M St A.
Variable assertion_failed : string → string.
Variable getLength : @StateVectorLQubitManaged PrecisionT → nat.

Implicit Types (sv : @StateVectorLQubitManaged PrecisionT).
Implicit Types (indices : list nat) (values : list (@ComplexT PrecisionT)).

(** X14.  [setBasisState] forgets what the buffer held: after a call with
    an index in range, a second call gives what it would have given at
    once. *)
Theorem setBasisState_twice sv index index' :
  index < length (data_ sv) →
  (setBasisState index ;; setBasisState index') sv = setBasisState index' sv.
Proof.
  intros Hlt. unfold bind at 1. rewrite setBasisState_in_range by done.
  unfold setBasisState, bind, get. cbn.
  rewrite length_insert, !length_replicate.
  by destruct (decide (index' < length (data_ sv))).
Qed.

Lemma setStateVector_step_run indices values n index value sv :
  indices !! n = Some index →
  values !! n = Some value →
  index < length (data_ sv) →
  setStateVector_step indices values n sv
  = Returned tt
      (mkStateVector (num_qubits_ sv) (<[index := value]> (data_ sv))).
Proof.
  intros Hindex Hvalue Hlt. unfold setStateVector_step, bind, get, vec_at. cbn.
  rewrite Hindex. cbn. rewrite Hvalue. cbn. by rewrite decide_True.
Qed.

Lemma setStateVector_loop indices values :
  ∀ todo pre vpre vtodo sv,
    indices = pre ++ todo →
    values = vpre ++ vtodo →
    length vpre = length pre →
    length todo ≤ length vtodo →
    Forall (λ i, i < length (data_ sv)) todo →
    ∃ sv',
      for_loop (length pre) (length todo) (setStateVector_step indices values) sv
      = Returned tt sv'
      ∧ num_qubits_ sv' = num_qubits_ sv
      ∧ length (data_ sv') = length (data_ sv)
      ∧ (∀ i, i ∉ todo → data_ sv' !! i = data_ sv !! i)
      ∧ (∀ n i, todo !! n = Some i →
                (∀ m, n < m → todo !! m ≠ Some i) →
                data_ sv' !! i = vtodo !! n).
Proof.
  induction todo as [|i0 todo IH];
    intros pre vpre vtodo sv Hindices Hvalues Hpre Hlen Hrange.
  - exists sv. do 4 (split; [done|]). intros n i Hn. by destruct n.
  - destruct vtodo as [|v0 vtodo]; [cbn in Hlen; lia|].
    apply Forall_cons in Hrange as [Hi0 Hrange].
    cbn [length for_loop]. unfold bind at 1.
    rewrite (setStateVector_step_run _ _ _ i0 v0).
    2: { rewrite Hindices, lookup_app_r, Nat.sub_diag by done. done. }
    2: { rewrite Hvalues, lookup_app_r, Hpre, Nat.sub_diag by lia. done. }
    2: done.
    set (sv1 := mkStateVector (num_qubits_ sv) (<[i0 := v0]> (data_ sv))).
    destruct (IH (pre ++ [i0]) (vpre ++ [v0]) vtodo sv1)
      as (sv' & Hrun & Hnq & Hlen' & Hframe & Hlast).
    { by rewrite <- app_assoc. }
    { by rewrite <- app_assoc. }
    { rewrite !length_app. cbn. lia. }
    { cbn in Hlen. lia. }
    { subst sv1. cbn. by rewrite length_insert. }
    exists sv'.
    replace (S (length pre)) with (length (pre ++ [i0]))
      by (rewrite length_app; cbn; lia).
    split; [done|]. split; [done|].
    split; [by rewrite Hlen'; subst sv1; cbn; rewrite length_insert|].
    split.
    + intros i Hi. apply not_elem_of_cons in Hi as [Hne Hi].
      rewrite Hframe by done. subst sv1. cbn.
      by rewrite list_lookup_insert_ne.
    + intros [|n] i Hn Hlater; cbn in Hn.
      * injection Hn as <-. rewrite Hframe.
        -- subst sv1. cbn. by rewrite list_lookup_insert_eq.
        -- intros Hin. apply list_elem_of_lookup in Hin as [m Hm].
           by apply (Hlater (S m)); [lia|].
      * apply Hlast; [done|]. intros m Hm. apply (Hlater (S m)). lia.
Qed.

(** X15.  When every index is inside the buffer and there is a value for
    each index, [setStateVector] returns with the qubit count and the
    length of the buffer unchanged; an amplitude whose position is not
    listed is as it was, and a listed position holds the value paired with
    its last occurrence in the list. *)
Theorem setStateVector_in_range sv indices values :
  Forall (λ i, i < length (data_ sv)) indices →
  length indices ≤ length values →
  ∃ sv',
    setStateVector indices values sv = Returned tt sv'
    ∧ num_qubits_ sv' = num_qubits_ sv
    ∧ length (data_ sv') = length (data_ sv)
    ∧ (∀ i, i ∉ indices → data_ sv' !! i = data_ sv !! i)
    ∧ (∀ n i, indices !! n = Some i →
              (∀ m, n < m → indices !! m ≠ Some i) →
              data_ sv' !! i = values !! n).
Proof.
  intros Hrange Hlen.
  by apply (setStateVector_loop indices values indices [] [] values sv).
Qed.

Lemma setStateVector_step_keeps_length indices values n sv sv' :
  setStateVector_step indices values n sv = Returned tt sv' →
  length (data_ sv') = length (data_ sv).
Proof.
  unfold setStateVector_step, bind, get, vec_at. cbn.
  destruct (indices !! n) as [index|]; [cbn|done].
  destruct (values !! n) as [value|]; [cbn|done].
  destruct (decide _); [|done]. unfold put. intros [= <-]. cbn.
  by rewrite length_insert.
Qed.

Lemma setStateVector_step_no_throw indices values n :
  no_throw (setStateVector_step indices values n).
Proof.
  unfold setStateVector_step.
  apply no_throw_bind; [by intros s e s'|]. intros sv.
  apply no_throw_bind; [apply no_throw_vec_at|]. intros index.
  apply no_throw_bind; [apply no_throw_vec_at|]. intros value.
  destruct (decide _); by intros s e s'.
Qed.

Lemma setStateVector_step_bad indices values n sv :
  (∃ index, indices !! n = Some index ∧ length (data_ sv) ≤ index)
  ∨ values !! n = None →
  n < length indices →
  setStateVector_step indices values n sv = Undefined.
Proof.
  intros Hbad Hn. unfold setStateVector_step, bind, get, vec_at. cbn.
  destruct (lookup_lt_is_Some_2 indices n Hn) as [index Hindex].
  rewrite Hindex. cbn.
  destruct (values !! n) as [value|] eqn:Hvalue; [cbn|done].
  destruct Hbad as [(index' & Hindex' & Hge)|?]; [|done].
  rewrite Hindex in Hindex'. injection Hindex' as <-.
  rewrite decide_False; [done | lia].
Qed.

Lemma setStateVector_loop_bad indices values n :
  ∀ lo sv k,
    lo ≤ k < lo + n →
    lo + n ≤ length indices →
    ((∃ index, indices !! k = Some index ∧ length (data_ sv) ≤ index)
     ∨ values !! k = None) →
    for_loop lo n (setStateVector_step indices values) sv = Undefined.
Proof.
  induction n as [|n IH]; intros lo sv k Hk Hn Hbad; [lia|].
  cbn [for_loop]. unfold bind at 1.
  destruct (setStateVector_step indices values lo sv) as [[] sv1|e sv1| |] eqn:Hstep;
    try done.
  - destruct (decide (k = lo)) as [->|Hne].
    + rewrite setStateVector_step_bad in Hstep by (done || lia). done.
    + apply (IH (S lo) sv1 k); [lia | lia |].
      by rewrite (setStateVector_step_keeps_length _ _ _ _ _ Hstep).
  - by apply setStateVector_step_no_throw in Hstep.
  - destruct (decide (k = lo)) as [->|Hne].
    + rewrite setStateVector_step_bad in Hstep by (done || lia). done.
    + unfold setStateVector_step, bind, get, vec_at in Hstep. cbn in Hstep.
      destruct (indices !! lo); [cbn in Hstep|done].
      destruct (values !! lo); [cbn in Hstep|done].
      by destruct (decide _).
Qed.

(** X16.  [setStateVector] checks nothing: when some listed index is
    outside the buffer, or the values run out before the indices, its
    behaviour is undefined, whatever came before the offending entry. *)
Theorem setStateVector_out_of_range sv indices values :
  (∃ n index, indices !! n = Some index ∧ length (data_ sv) ≤ index)
  ∨ length values < length indices →
  setStateVector indices values sv = Undefined.
Proof.
  intros [(n & index & Hindex & Hge)|Hshort]; unfold setStateVector.
  - apply (setStateVector_loop_bad _ _ _ 0 sv n).
    + split; [lia|]. cbn. by eapply lookup_lt_Some.
    + done.
    + left. by exists index.
  - apply (setStateVector_loop_bad _ _ _ 0 sv (length values)).
    + lia.
    + done.
    + right. by apply lookup_ge_None_2.
Qed.

(** X17.  [updateData] on a vector of the length of the buffer returns
    with the buffer equal to that vector and the qubit count unchanged; on
    a vector of any other length the assertion fails and the state vector
    is the one the failure finds, untouched. *)
Theorem updateData_vec_cases sv values :
  (length values = length (data_ sv) →
   updateData_vec PL_ABORT assertion_failed values sv
   = Returned tt (mkStateVector (num_qubits_ sv) values))
  ∧ (length values ≠ length (data_ sv) →
     updateData_vec PL_ABORT assertion_failed values sv
     = PL_ABORT _ unit (assertion_failed "data_.size() == new_size") sv).
Proof.
  unfold updateData_vec, updateData_ptr, bind, get, PL_ASSERT. cbn. split.
  - intros Hlen. rewrite bool_decide_true by done.
    rewrite decide_True by done. unfold put. by rewrite firstn_all.
  - intros Hlen. by rewrite bool_decide_false by (intros ?; done).
Qed.

(** The pointer overload copies [new_size] entries and reads no further. *)
Lemma updateData_ptr_copies sv values new_size :
  new_size = length (data_ sv) →
  new_size ≤ length values →
  updateData_ptr PL_ABORT assertion_failed values new_size sv
  = Returned tt (mkStateVector (num_qubits_ sv) (take new_size values)).
Proof.
  intros Hsize Hle. unfold updateData_ptr, bind, get, PL_ASSERT. cbn.
  rewrite bool_decide_true by done. by rewrite decide_True.
Qed.

(** X18.  Where [getLength] is positive on every non-empty buffer,
    [resetStateVector] undoes [setBasisState]: when there is room for
    [2^n] amplitudes, the state vector the constructor makes for [n]
    qubits, moved to any basis state in range and reset, is the one the
    constructor made. *)
Theorem resetStateVector_restores {St} max_size available n index (s : St) :
  (∀ sv, data_ sv ≠ [] → 0 < getLength sv) →
  2 ^ n ≤ max_size →
  2 ^ n ≤ available →
  index < 2 ^ n →
  ∃ sv0,
    StateVectorLQubitManaged_ctor max_size available n s = Returned sv0 s
    ∧ (setBasisState index ;; resetStateVector getLength) sv0
      = Returned tt sv0.
Proof.
  intros Hlength Hmax Havailable Hindex.
  assert (0 < 2 ^ n) as Hpos by lia.
  set (zeros := replicate (2 ^ n) (fzero, fzero) : list ComplexT).
  assert (length zeros = 2 ^ n) as Hzeros by apply length_replicate.
  exists (mkStateVector n (<[0 := (fone, fzero)]> zeros)). split.
  - unfold StateVectorLQubitManaged_ctor, vector_ctor, Util.exp2, bind.
    rewrite !decide_False by lia. unfold ret, with_local. fold zeros.
    rewrite setBasisState_in_range by (cbn; lia).
    cbn. by rewrite Hzeros.
  - unfold bind at 1.
    rewrite setBasisState_in_range by (cbn; rewrite length_insert; lia).
    cbn. rewrite length_insert, Hzeros. fold zeros.
    unfold resetStateVector, bind, get.
    rewrite decide_True.
    + rewrite setBasisState_in_range by (cbn; rewrite length_insert; lia).
      cbn. by rewrite length_insert, Hzeros.
    + apply Hlength. cbn. intros Hnil.
      apply (f_equal length) in Hnil. rewrite length_insert in Hnil.
      cbn in Hnil. lia.
Qed.

(** [resetStateVector] does nothing where [getLength] is zero. *)
Lemma resetStateVector_zero_length sv :
  getLength sv = 0 → resetStateVector getLength sv = Returned tt sv.
Proof.
  intros Hzero. unfold resetStateVector, bind, get.
  rewrite decide_False by lia. done.
Qed.

End StateVectorLQubitManaged_more.

(** ** More on vector-Jacobian products *)

Section VectorJacobianProduct_more.

Context {T : Type} `{!Scalar T}.

Implicit Types (jac : list (list T)) (row dy res flat : list T).

Lemma getRowMajor_loops jac c res :
  Forall (λ row, length row = c) jac →
  length res = length jac * c →
  zoom (λ res, (res, 0)) (λ (st : list T * nat) _, st.1)
    (for_loop 0 (length jac) (λ i, for_loop 0 c (getRowMajor_step jac i)))
    res
  = Returned tt (mjoin jac).
Proof.
  intros Hrows Hres. unfold zoom.
  pose proof (getRowMajor_copies_rows jac c Hrows jac [] [] res eq_refl)
    as Hloop.
  rewrite (length_join_rows _ _ Hrows) in Hloop.
  cbn [length app] in Hloop. rewrite Hloop by by rewrite Hres.
  cbn [fst]. rewrite drop_ge by by rewrite Hres. by rewrite app_nil_r.
Qed.

(** X19.  Called without a length, [getRowMajor] on a Jacobian with at
    least one row, all rows of one length, leaves in [res] the rows one
    after the other, whatever [res] held and whatever its size was; on a
    Jacobian without rows it leaves [res] alone. *)
Theorem getRowMajor_default_length jac c res :
  Forall (λ row, length row = c) jac →
  getRowMajor jac 0 res
  = Returned tt (if decide (jac = []) then res else mjoin jac).
Proof.
  intros Hrows. destruct jac as [|front rows]; [done|].
  rewrite decide_False by done. unfold getRowMajor.
  assert (length front = c) as -> by by inv Hrows.
  rewrite decide_False by (intros ?; done).
  unfold bind at 1. unfold get. unfold bind at 1.
  destruct (decide (length res ≠ length (front :: rows) * c)) as [Hne|Heq].
  - unfold put. apply getRowMajor_loops; [done|]. apply length_resize.
  - unfold ret. apply getRowMajor_loops; [done|].
    by destruct (decide (length res = length (front :: rows) * c)).
Qed.

(** X20.  On a Jacobian with at least one row, all rows of one positive
    length, [_computeVJP] given the rows laid one after the other, the
    number of rows and their length does what [computeVJP] does on the
    Jacobian itself, for every upstream gradient. *)
Theorem _computeVJP_agrees_with_computeVJP jac dy c vjp0 :
  jac ≠ [] →
  0 < c →
  Forall (λ row, length row = c) jac →
  _computeVJP (mjoin jac) dy (length jac) c vjp0 = computeVJP jac dy vjp0.
Proof.
  intros Hjac Hc Hrows.
  assert (mjoin jac ≠ []) as Hflat.
  { intros Hnil. apply (f_equal length) in Hnil.
    rewrite (length_join_rows _ _ Hrows) in Hnil.
    destruct jac; [done|]. cbn in Hnil. lia. }
  destruct dy as [|y dy].
  { rewrite computeVJP_empty_dy. unfold _computeVJP. by destruct (mjoin jac). }
  destruct (decide (length (y :: dy) = length jac)) as [Heq|Hne].
  - rewrite (computeVJP_run _ _ c) by done.
    unfold _computeVJP. destruct (mjoin jac) as [|a flat] eqn:E; [done|].
    by rewrite decide_False by (intros ?; done).
  - rewrite computeVJP_wrong_size by done.
    unfold _computeVJP. destruct (mjoin jac) as [|a flat] eqn:E; [done|].
    by rewrite decide_True.
Qed.

(** [_computeVJP] by cases: it empties [vjp] and reports nothing when the
    flattened Jacobian or the upstream gradient is empty; otherwise it
    throws, with [vjp] as it was, when the length of the gradient differs
    from the row count [m] it is given, and else hands the flattened
    Jacobian to the product as it is. *)
Lemma _computeVJP_cases flat dy m n vjp0 :
  (flat = [] ∨ dy = [] → _computeVJP flat dy m n vjp0 = Returned tt [])
  ∧ (flat ≠ [] → dy ≠ [] → length dy ≠ m →
     _computeVJP flat dy m n vjp0
     = Thrown (invalid_argument invalid_dy_size) vjp0)
  ∧ (flat ≠ [] → dy ≠ [] → length dy = m →
     _computeVJP flat dy m n vjp0 = vecMatrixProd dy flat m n vjp0).
Proof.
  unfold _computeVJP. split; [|split].
  - intros [->| ->]; [done|]. by destruct flat.
  - intros Hflat Hdy Hne. destruct flat; [done|]. destruct dy; [done|].
    by rewrite decide_True.
  - intros Hflat Hdy Heq. destruct flat; [done|]. destruct dy; [done|].
    by rewrite decide_False by (intros ?; done).
Qed.

(** Rows longer than the first one: the loops read only as many entries
    of each row as the first row has. *)
Lemma getRowMajor_copies_row_prefix jac i row :
  jac !! i = Some row →
  ∀ todo pre extra done rest,
    row = pre ++ todo ++ extra →
    length todo ≤ length rest →
    for_loop (length pre) (length todo) (getRowMajor_step jac i)
      (done ++ rest, length done)
    = Returned tt (done ++ todo ++ drop (length todo) rest,
                   length done + length todo).
Proof.
  intros Hrow.
  induction todo as [|x todo IH]; intros pre extra done rest -> Hlen.
  - cbn. by rewrite Nat.add_0_r.
  - destruct rest as [|y rest]; [cbn in Hlen; lia|].
    cbn [length for_loop]. unfold bind at 1.
    rewrite (getRowMajor_step_writes _ _ _ _ x _ _ _ Hrow)
      by (rewrite lookup_app_r, Nat.sub_diag by done; done).
    replace (S (length pre)) with (length (pre ++ [x]))
      by (rewrite length_app; cbn; lia).
    rewrite (IH (pre ++ [x]) extra (done ++ [x]) rest).
    + cbn. rewrite <- !app_assoc, length_app. cbn.
      do 2 f_equal. lia.
    + by rewrite <- !app_assoc.
    + cbn in Hlen. lia.
Qed.

Lemma getRowMajor_copies_rows_prefix jac c :
  Forall (λ row, c ≤ length row) jac →
  ∀ todo pre done rest,
    jac = pre ++ todo →
    length (mjoin (take c <$> todo)) ≤ length rest →
    for_loop (length pre) (length todo)
      (λ i, for_loop 0 c (getRowMajor_step jac i))
      (done ++ rest, length done)
    = Returned tt
        (done ++ mjoin (take c <$> todo)
           ++ drop (length (mjoin (take c <$> todo))) rest,
         length done + length (mjoin (take c <$> todo))).
Proof.
  intros Hrows.
  induction todo as [|row todo IH]; intros pre done rest Hjac Hlen.
  - cbn. by rewrite Nat.add_0_r.
  - assert (jac !! length pre = Some row) as Hrow.
    { rewrite Hjac, lookup_app_r, Nat.sub_diag by done. done. }
    assert (c ≤ length row) as Hc.
    { by apply (Forall_lookup_1 _ _ _ _ Hrows Hrow). }
    assert (length (take c row) = c) as Htake
      by (rewrite length_take; lia).
    change (mjoin (take c <$> row :: todo))
      with (take c row ++ mjoin (take c <$> todo)) in *.
    cbn [length for_loop].
    rewrite length_app, Htake in Hlen.
    pose proof (getRowMajor_copies_row_prefix _ _ _ Hrow (take c row) []
                  (drop c row) done rest) as Hinner.
    cbn [length app] in Hinner. rewrite Htake in Hinner.
    specialize (Hinner (eq_sym (take_drop c row))).
    unfold bind at 1. rewrite Hinner by lia.
    replace (S (length pre)) with (length (pre ++ [row]))
      by (rewrite length_app; cbn; lia).
    rewrite app_assoc.
    replace (length done + c) with (length (done ++ take c row))
      by (rewrite length_app; lia).
    rewrite (IH (pre ++ [row]) (done ++ take c row) (drop c rest)).
    + rewrite drop_drop, !length_app, <- !app_assoc, Htake.
      by rewrite Nat.add_assoc.
    + by rewrite <- app_assoc.
    + rewrite length_drop. lia.
Qed.

Lemma getRowMajor_truncating front rows len res :
  Forall (λ row, length front ≤ length row) rows →
  len = 0 ∨ len = length (front :: rows) * length front →
  getRowMajor (front :: rows) len res
  = Returned tt (mjoin (take (length front) <$> front :: rows)).
Proof.
  intros Hrows Hlen. unfold getRowMajor.
  set (jac := front :: rows). set (c := length front).
  assert (Forall (λ row, c ≤ length row) jac) as Hjac
    by (apply Forall_cons; split; [done|apply Hrows]).
  assert (Forall (λ row, length row = c) (take c <$> jac)) as Htaken.
  { apply Forall_fmap. eapply Forall_impl; [exact Hjac|].
    intros row Hrow. unfold compose. cbv beta in Hrow.
    rewrite length_take. lia. }
  pose proof (length_join_rows _ _ Htaken) as Hflat.
  rewrite length_fmap in Hflat.
  assert (∀ res', length res' = length jac * c →
            zoom (λ res, (res, 0)) (λ (st : list T * nat) _, st.1)
              (for_loop 0 (length jac)
                 (λ i, for_loop 0 c (getRowMajor_step jac i))) res'
            = Returned tt (mjoin (take c <$> jac))) as Hloops.
  { intros res' Hres'. unfold zoom.
    pose proof (getRowMajor_copies_rows_prefix jac c Hjac jac [] [] res'
                  eq_refl) as Hloop.
    rewrite Hflat in Hloop. cbn [length app] in Hloop.
    rewrite Hloop by by rewrite Hres'.
    cbn [fst]. rewrite drop_ge by by rewrite Hres'. by rewrite app_nil_r. }
  assert ((if decide (len ≠ 0) then len else length jac * c)
          = length jac * c) as ->.
  { destruct Hlen as [->| ->]; by destruct (decide _). }
  unfold bind at 1. unfold get. unfold bind at 1.
  destruct (decide (length res ≠ length jac * c)) as [Hne|Heq].
  - unfold put. apply Hloops. apply length_resize.
  - unfold ret. apply Hloops.
    by destruct (decide (length res = length jac * c)).
Qed.

(** X21.  When no row of the Jacobian is shorter than the first,
    [computeVJP] uses of each row only as many entries as the first row
    has: it does on the Jacobian what it does on the Jacobian with every
    row cut to that length, and reports nothing about the entries it
    leaves out. *)
Theorem computeVJP_truncates_rows front rows dy vjp0 :
  Forall (λ row, length front ≤ length row) rows →
  computeVJP (front :: rows) dy vjp0
  = computeVJP (take (length front) <$> front :: rows) dy vjp0.
Proof.
  intros Hrows. destruct dy as [|y dy]; [done|].
  cbn [fmap list_fmap]. unfold computeVJP.
  rewrite firstn_all. cbn [length]. rewrite length_fmap.
  destruct (decide (S (length dy) ≠ S (length rows))); [done|].
  unfold bind, with_local.
  rewrite (getRowMajor_truncating front rows) by (done || by right).
  pose proof (getRowMajor_truncating front (take (length front) <$> rows)
                (S (length rows) * length front)
                (replicate (S (length rows) * length front) fzero))
    as Hcut.
  cbn [length] in Hcut. rewrite length_fmap in Hcut.
  rewrite Hcut.
  - cbn [fmap list_fmap]. rewrite firstn_all. do 3 f_equal.
    clear. induction rows as [|row rows IH]; [done|].
    cbn. rewrite take_take, Nat.min_id. by f_equal.
  - apply Forall_fmap. eapply Forall_impl; [exact Hrows|].
    intros row Hrow. unfold compose. cbv beta in Hrow.
    rewrite length_take. lia.
  - by right.
Qed.

Section tape_more.

Context {OpsData ObsData : Type}.
Variable adjointJacobianTape :
  GradTapeT OpsData ObsData → bool → M (list (list T)) unit.

Implicit Types (tape : GradTapeT OpsData ObsData) (st : @vjp_store T).

(** X22.  With no trainable parameter, or with an empty upstream
    gradient, [vectorJacobianProduct] empties [vjp] and the callable of
    [vectorJacobianProductFunc] returns the empty vector, whenever it is
    invoked (its lambda captures nothing); neither touches the Jacobian or
    calls [adjointJacobianTape]. *)
Theorem vjp_nothing_to_do dy tape apply_operations st frame_live calls :
  trainableParams tape = [] ∨ dy = [] →
  vectorJacobianProduct adjointJacobianTape dy tape apply_operations st
  = Returned tt (mkVjpStore [] (jac st) (adjoint_calls st))
  ∧ vectorJacobianProductFunc_callable adjointJacobianTape dy tape
      apply_operations frame_live calls
    = Returned [] calls.
Proof.
  intros Hnone.
  split; [by apply vectorJacobianProduct_nothing_to_do|].
  unfold vectorJacobianProductFunc_callable.
  assert (bool_decide (length (trainableParams tape) = 0)
          || bool_decide (dy = []) = true) as ->; [|done].
  destruct Hnone as [->| ->]; [done|]. by rewrite orb_true_r.
Qed.

(** X23.  On an upstream gradient that is not empty and all zeros, for a
    tape with a trainable parameter, [vectorJacobianProduct] returns
    without a call to [adjointJacobianTape] and with the Jacobian as it
    was.  [vjp] then has one entry per trainable parameter: the entries it
    had before, as far as they fit, are what they were, and only the
    entries past its former end are zero. *)
Theorem vjp_allzero_shortcut dy tape apply_operations st :
  trainableParams tape ≠ [] →
  dy ≠ [] →
  allzero dy = true →
  ∃ v,
    vectorJacobianProduct adjointJacobianTape dy tape apply_operations st
    = Returned tt (mkVjpStore v (jac st) (adjoint_calls st))
    ∧ length v = length (trainableParams tape)
    ∧ (∀ i, i < length (vjp st) → i < length (trainableParams tape) →
            v !! i = vjp st !! i)
    ∧ (∀ i, length (vjp st) ≤ i < length (trainableParams tape) →
            v !! i = Some fzero).
Proof.
  intros Htape Hdy Hzero.
  eexists. split; [by apply vectorJacobianProduct_allzero|].
  split; [apply length_resize|]. split.
  - intros i Hold Hnew. unfold resize.
    rewrite lookup_app_l by (rewrite length_take; lia).
    rewrite lookup_take. by rewrite decide_True.
  - intros i [Hlo Hhi]. unfold resize.
    rewrite lookup_app_r by (rewrite length_take; lia).
    apply lookup_replicate_2. rewrite length_take. lia.
Qed.

(** X24.  On a gradient that is neither empty nor all zeros, for a tape
    with a trainable parameter, [vectorJacobianProduct] calls
    [adjointJacobianTape] once, on the Jacobian it was given, and then
    [computeVJP] on the Jacobian that call has left; when
    [adjointJacobianTape] throws, [vjp] is as it was. *)
Theorem vectorJacobianProduct_full dy tape apply_operations st :
  trainableParams tape ≠ [] →
  dy ≠ [] →
  allzero dy = false →
  vectorJacobianProduct adjointJacobianTape dy tape apply_operations st
  = match adjointJacobianTape tape apply_operations (jac st) with
    | Returned _ J =>
        match computeVJP J dy (vjp st) with
        | Returned _ v =>
            Returned tt (mkVjpStore v J (S (adjoint_calls st)))
        | Thrown e v => Thrown e (mkVjpStore v J (S (adjoint_calls st)))
        | Aborted => Aborted
        | Undefined => Undefined
        end
    | Thrown e J =>
        Thrown e (mkVjpStore (vjp st) J (S (adjoint_calls st)))
    | Aborted => Aborted
    | Undefined => Undefined
    end.
Proof.
  intros Htape Hdy Hzero. unfold vectorJacobianProduct.
  rewrite bool_decide_false by by destruct (trainableParams tape).
  rewrite bool_decide_false by done. cbn. rewrite Hzero.
  unfold bind, count_adjoint_call, on_jac, on_vjp, zoom, get. cbn.
  destruct (adjointJacobianTape tape apply_operations (jac st))
    as [[] J|e J| |]; try done.
  cbn. by destruct (computeVJP J dy (vjp st)) as [[] v|e v| |].
Qed.

(** X25.  For a tape with a trainable parameter and a gradient that is not
    empty, invoking the callable that [vectorJacobianProductFunc] has
    returned is undefined behaviour: its lambda holds a reference to the
    local [num_params] of a call that is over, and reads it before
    anything else.  Nothing is promised of such a call. *)
Theorem vectorJacobianProductFunc_dangling dy tape apply_operations calls :
  trainableParams tape ≠ [] →
  dy ≠ [] →
  vectorJacobianProductFunc_callable adjointJacobianTape dy tape
    apply_operations false calls
  = Undefined.
Proof.
  intros Htape Hdy. unfold vectorJacobianProductFunc_callable.
  rewrite bool_decide_false by by destruct (trainableParams tape).
  rewrite bool_decide_false by done. cbn.
  by destruct (allzero dy).
Qed.

End tape_more.

End VectorJacobianProduct_more.

(** ** The checks of the MPO constructor *)

Lemma is_sorted_Sorted (l : list nat) : Sorted le l → is_sorted l = true.
Proof.
  induction 1 as [|x l Hsorted IH Hhd]; [done|].
  destruct Hhd as [|y l Hle]; [done|].
  cbn. rewrite decide_False by lia. apply IH.
Qed.

Section MPOTNCuda_more.

Variable PL_ABORT : ∀ St A : Type, string → M St A.

(** X26.  The constructor of [MPOTNCuda] abandons every construction on a
    list of wires in ascending order: its third check aborts when
    [std::is_sorted] holds, so with ascending wires one of the three checks
    always fires and the set-up that follows them is not run. *)
Theorem MPOTNCuda_ctor_rejects_sorted {St Tensor} (tensors : list Tensor)
    (wires : list nat) (maxBondDim : nat) (set_up : M St unit) (s : St) :
  Sorted le wires →
  ∃ message,
    message ∈ [tensors_wires_mismatch; bond_dim_too_small; sorted_wires_only]
    ∧ MPOTNCuda_ctor PL_ABORT tensors wires maxBondDim set_up s
      = PL_ABORT St unit message s.
Proof.
  intros Hsorted.
  unfold MPOTNCuda_ctor, PL_ABORT_IF_NOT, PL_ABORT_IF.
  rewrite (is_sorted_Sorted _ Hsorted).
  destruct (bool_decide (length tensors = length wires)).
  - destruct (bool_decide (maxBondDim < 2)).
    + exists bond_dim_too_small. split; [set_solver|done].
    + exists sorted_wires_only. split; [set_solver|done].
  - exists tensors_wires_mismatch. split; [set_solver|done].
Qed.

(** The set-up is reached only on wires that are not in ascending order,
    with as many tensors as wires and a bond dimension of at least 2. *)
Lemma MPOTNCuda_ctor_passes {St Tensor} (tensors : list Tensor)
    (wires : list nat) (maxBondDim : nat) (set_up : M St unit) (s : St) :
  length tensors = length wires →
  2 ≤ maxBondDim →
  is_sorted wires = false →
  MPOTNCuda_ctor PL_ABORT tensors wires maxBondDim set_up s = set_up s.
Proof.
  intros Hlen Hbond Hunsorted.
  unfold MPOTNCuda_ctor, PL_ABORT_IF_NOT, PL_ABORT_IF.
  rewrite bool_decide_true by done.
  rewrite bool_decide_false by lia. by rewrite Hunsorted.
Qed.

End MPOTNCuda_more.

(** ** Concrete runs of the further properties *)

Lemma strToGateOp_first_entry_witness :
  strToGateOp sample_dispatcher "CNOT" tt = Returned CNOT tt
  ∧ strToGateOp sample_dispatcher "Toffoli" tt = Thrown out_of_range tt.
Proof.
  split.
  - exact (strToGateOp_first_entry sample_gate_names sample_dispatcher "CNOT"
             tt sample_dispatcher_configured).
  - exact (strToGateOp_first_entry sample_gate_names sample_dispatcher
             "Toffoli" tt sample_dispatcher_configured).
Defined.

Lemma registerGateOperation_then_apply_witness :
  gates_ sample_empty_dispatcher !! (PauliX, KernelType.LM) = None
  ∧ applyOperation_op sample_gate_names
      (registerGateOperation PauliX KernelType.LM sample_flip
         sample_empty_dispatcher)
      KernelType.LM 1 PauliX [0] false [] [1; 0]%Z
    = Returned tt [0; 1]%Z.
Proof.
  assert (gates_ sample_empty_dispatcher !! (PauliX, KernelType.LM) = None)
    as Hnone by reflexivity.
  split; [exact Hnone|].
  exact (proj1 (registerGateOperation_then_apply sample_gate_names
                  sample_generator_names false sample_empty_dispatcher
                  KernelType.LM PauliX sample_flip Hnone)
           1 [0] false [] [1; 0]%Z).
Defined.

Lemma applyGenerator_op_unregistered_witness :
  generators_ sample_empty_dispatcher !! (GeneratorRX, KernelType.LM) = None
  ∧ applyGenerator_op sample_generator_names sample_empty_dispatcher
      KernelType.LM 1 GeneratorRX [0] false [1; 0]%Z
    = Thrown (named_error sample_generator_names GeneratorRX
                no_such_generator)
        [1; 0]%Z
  ∧ applyGenerator_op sample_generator_names sample_generator_dispatcher
      KernelType.LM 1 GeneratorRX [0] false [1; 0]%Z
    = Returned (-1)%Z [0; 1]%Z.
Proof.
  assert (generators_ sample_empty_dispatcher
            !! (GeneratorRX, KernelType.LM) = None) as Hnone by reflexivity.
  split; [exact Hnone|].
  destruct (applyGenerator_op_unregistered sample_generator_names
              sample_empty_dispatcher KernelType.LM GeneratorRX 1 [0] false
              [1; 0]%Z Hnone) as [Hthrown Hregistered].
  split; [exact Hthrown | exact (Hregistered sample_generator)].
Defined.

Lemma registerMatrixOperation_then_apply_witness :
  applyMatrix_vec false
    (registerMatrixOperation SingleQubitOp KernelType.LM sample_scale
       sample_empty_dispatcher)
    KernelType.LM 1 [2; 0; 0; 2]%Z [0] false [1; 0]%Z
  = Returned tt [2; 0]%Z.
Proof.
  refine (proj1 (registerMatrixOperation_then_apply false
                   sample_empty_dispatcher KernelType.LM 1 [2; 0; 0; 2]%Z
                   [0] false [1; 0]%Z sample_scale _ _ _)).
  - reflexivity.
  - reflexivity.
  - cbn. lia.
Defined.

Lemma applyMatrix_unregistered_undefined_witness :
  applyMatrix_ptr false sample_dispatcher KernelType.PI 1 [2; 0; 0; 2]%Z [0]
    false [1; 0]%Z
  = Undefined
  ∧ applyMatrix_vec false sample_dispatcher KernelType.PI 1 [2; 0; 0; 2]%Z
      [0] false [1; 0]%Z
    = Undefined.
Proof.
  assert (length [0] ≤ 1) as Hle by (cbn; lia).
  destruct (applyMatrix_unregistered_undefined false sample_dispatcher
              KernelType.PI 1 [2; 0; 0; 2]%Z [0] false [1; 0]%Z eq_refl Hle)
    as [Hptr Hvec].
  split; [exact Hptr | exact (Hvec eq_refl)].
Defined.

Lemma applyMatrix_more_wires_than_qubits_witness :
  applyMatrix_ptr false sample_dispatcher KernelType.LM 0 [2; 0; 0; 2]%Z [0]
    false [1]%Z
  = Aborted
  ∧ applyMatrix_ptr true sample_dispatcher KernelType.LM 0 [2; 0; 0; 2]%Z [0]
      false [1]%Z
    = Returned tt [2]%Z.
Proof.
  assert (0 < length [0]) as Hlt by (cbn; lia).
  destruct (applyMatrix_more_wires_than_qubits sample_dispatcher
              KernelType.LM 0 [2; 0; 0; 2]%Z [0] false [1]%Z Hlt)
    as (Hdebug & _ & Hrelease).
  split; [exact Hdebug | exact (Hrelease sample_scale eq_refl)].
Defined.

Example removeGeneratorPrefix_samples :
  removeGeneratorPrefix "GeneratorRX" = "RX"
  ∧ removeGeneratorPrefix "RX" = "RX"
  ∧ removeGeneratorPrefix "GeneratorOfGenerators" = "GeneratorOfGenerators".
Proof. by vm_compute. Qed.

Lemma applyGenerator_name_agrees_with_op_witness :
  applyGenerator_name sample_generator_dispatcher
    (str_to_gntrs_ctor sample_generator_names) KernelType.LM 1
    (removeGeneratorPrefix "GeneratorRX") [0] false [1; 0]%Z
  = Returned (-1)%Z [0; 1]%Z
  ∧ applyGenerator_op sample_generator_names sample_generator_dispatcher
      KernelType.LM 1 GeneratorRX [0] false [1; 0]%Z
    = Returned (-1)%Z [0; 1]%Z.
Proof.
  refine (applyGenerator_name_agrees_with_op sample_generator_names
            sample_generator_dispatcher KernelType.LM GeneratorRX
            "GeneratorRX" sample_generator 1 [0] false [1; 0]%Z _ _ _).
  - by apply (bool_decide_unpack _).
  - unfold sample_generator_names. set_solver.
  - reflexivity.
Defined.

Lemma setBasisState_twice_witness :
  (setBasisState 1 ;; setBasisState 2)
    (mkStateVector 2 [(1, 0); (0, 0); (0, 0); (0, 0)]%Z)
  = setBasisState 2 (mkStateVector 2 [(1, 0); (0, 0); (0, 0); (0, 0)]%Z).
Proof.
  apply (setBasisState_twice
           (mkStateVector 2 [(1, 0); (0, 0); (0, 0); (0, 0)]%Z) 1 2).
  cbn. lia.
Defined.

Lemma setStateVector_in_range_witness :
  ∃ sv',
    setStateVector [1; 3; 1] [(5, 0); (6, 0); (7, 0)]%Z
      (mkStateVector 2 [(1, 0); (0, 0); (0, 0); (0, 0)]%Z)
    = Returned tt sv'
    ∧ num_qubits_ sv' = 2
    ∧ length (data_ sv') = 4
    ∧ (∀ i, i ∉ [1; 3; 1] →
            data_ sv' !! i = [(1, 0); (0, 0); (0, 0); (0, 0)]%Z !! i)
    ∧ (∀ n i, [1; 3; 1] !! n = Some i →
              (∀ m, n < m → [1; 3; 1] !! m ≠ Some i) →
              data_ sv' !! i = [(5, 0); (6, 0); (7, 0)]%Z !! n).
Proof.
  apply (setStateVector_in_range
           (mkStateVector 2 [(1, 0); (0, 0); (0, 0); (0, 0)]%Z) [1; 3; 1]
           [(5, 0); (6, 0); (7, 0)]%Z).
  - repeat constructor.
  - cbn. lia.
Defined.

Example setStateVector_sample :
  setStateVector [1; 3; 1] [(5, 0); (6, 0); (7, 0)]%Z
    (mkStateVector 2 [(1, 0); (0, 0); (0, 0); (0, 0)]%Z)
  = Returned tt (mkStateVector 2 [(1, 0); (7, 0); (0, 0); (6, 0)]%Z).
Proof. reflexivity. Qed.

Lemma setStateVector_out_of_range_witness :
  setStateVector [1; 4] [(5, 0); (6, 0)]%Z
    (mkStateVector 2 [(1, 0); (0, 0); (0, 0); (0, 0)]%Z)
  = Undefined.
Proof.
  apply (setStateVector_out_of_range
           (mkStateVector 2 [(1, 0); (0, 0); (0, 0); (0, 0)]%Z) [1; 4]
           [(5, 0); (6, 0)]%Z).
  left. exists 1, 4. split; [reflexivity | cbn; lia].
Defined.

Example updateData_samples :
  updateData_vec sample_abort (λ text, text) [(0, 0); (1, 0)]%Z
    (mkStateVector 1 [(1, 0); (0, 0)]%Z)
  = Returned tt (mkStateVector 1 [(0, 0); (1, 0)]%Z)
  ∧ updateData_vec sample_abort (λ text, text) [(0, 0)]%Z
      (mkStateVector 1 [(1, 0); (0, 0)]%Z)
    = Thrown (invalid_argument "data_.size() == new_size")
        (mkStateVector 1 [(1, 0); (0, 0)]%Z).
Proof. split; reflexivity. Qed.

Lemma resetStateVector_restores_witness :
  ∃ sv0,
    StateVectorLQubitManaged_ctor (2 ^ 64 - 1) (2 ^ 64 - 1) 2 tt
    = Returned sv0 tt
    ∧ (setBasisState 3 ;; resetStateVector (λ sv, length (data_ sv))) sv0
      = Returned tt sv0.
Proof.
  apply (resetStateVector_restores
           (λ sv : @StateVectorLQubitManaged Z, length (data_ sv))
           (2 ^ 64 - 1) (2 ^ 64 - 1) 2 3 tt).
  - intros sv Hne. destruct (data_ sv); [done | cbn; lia].
  - apply exp2_fits. lia.
  - apply exp2_fits. lia.
  - cbn. lia.
Defined.

Lemma getRowMajor_default_length_witness :
  getRowMajor [[1; 2]; [3; 4]]%Z 0 [9]%Z = Returned tt [1; 2; 3; 4]%Z.
Proof.
  apply (getRowMajor_default_length [[1; 2]; [3; 4]]%Z 2 [9]%Z).
  repeat constructor.
Defined.

Lemma _computeVJP_agrees_with_computeVJP_witness :
  _computeVJP (mjoin [[1; 2]; [3; 4]]%Z) [5; 6]%Z 2 2 []
  = computeVJP [[1; 2]; [3; 4]]%Z [5; 6]%Z [].
Proof.
  apply (_computeVJP_agrees_with_computeVJP [[1; 2]; [3; 4]]%Z [5; 6]%Z 2 []).
  - discriminate.
  - lia.
  - repeat constructor.
Defined.

Lemma computeVJP_truncates_rows_witness :
  computeVJP ([1; 2] :: [[3; 4; 99]])%Z [5; 6]%Z []
  = computeVJP (take 2 <$> [1; 2] :: [[3; 4; 99]])%Z [5; 6]%Z [].
Proof.
  apply (computeVJP_truncates_rows [1; 2]%Z [[3; 4; 99]]%Z [5; 6]%Z []).
  repeat constructor.
Defined.

Example computeVJP_longer_row_sample :
  computeVJP [[1; 2]; [3; 4; 99]]%Z [5; 6]%Z [] = Returned tt [23; 34]%Z.
Proof. reflexivity. Qed.

Lemma vjp_nothing_to_do_witness :
  vectorJacobianProduct (λ _ _ _, Returned tt [[1]]%Z) [5%Z]
    (mkGradTape tt [tt] []) false (mkVjpStore [7%Z] [[0%Z]] 0)
  = Returned tt (mkVjpStore [] [[0%Z]] 0)
  ∧ vectorJacobianProductFunc_callable (λ _ _ _, Returned tt [[1]]%Z) [5%Z]
      (mkGradTape tt [tt] []) false false 0
    = Returned [] 0.
Proof.
  apply (vjp_nothing_to_do (λ _ _ _, Returned tt [[1]]%Z) [5%Z]
           (mkGradTape tt [tt] []) false (mkVjpStore [7%Z] [[0%Z]] 0) false
           0).
  left. reflexivity.
Defined.

Lemma vjp_allzero_shortcut_witness :
  ∃ v,
    vectorJacobianProduct (λ _ _ _, Returned tt [[1; 1]]%Z) [0%Z]
      (mkGradTape tt [tt] [0; 1]) false (mkVjpStore [5%Z] [[0; 0]%Z] 0)
    = Returned tt (mkVjpStore v [[0; 0]%Z] 0)
    ∧ length v = 2
    ∧ (∀ i, i < 1 → i < 2 → v !! i = [5%Z] !! i)
    ∧ (∀ i, 1 ≤ i < 2 → v !! i = Some 0%Z).
Proof.
  refine (vjp_allzero_shortcut (λ _ _ _, Returned tt [[1; 1]]%Z) [0%Z]
            (mkGradTape tt [tt] [0; 1]) false (mkVjpStore [5%Z] [[0; 0]%Z] 0)
            _ _ _);
    [discriminate | discriminate | reflexivity].
Defined.

Example vjp_allzero_shortcut_sample :
  vectorJacobianProduct (λ _ _ _, Returned tt [[1; 1]]%Z) [0%Z]
    (mkGradTape tt [tt] [0; 1]) false (mkVjpStore [5%Z] [[0; 0]%Z] 0)
  = Returned tt (mkVjpStore [5; 0]%Z [[0; 0]%Z] 0).
Proof. reflexivity. Qed.

Lemma vectorJacobianProduct_full_witness :
  vectorJacobianProduct (λ _ _ _, Returned tt [[1; 2]; [3; 4]]%Z) [5; 6]%Z
    (mkGradTape tt [tt; tt] [0; 1]) false
    (mkVjpStore [0; 0]%Z [[0; 0]; [0; 0]]%Z 0)
  = Returned tt (mkVjpStore [23; 34]%Z [[1; 2]; [3; 4]]%Z 1).
Proof.
  refine (vectorJacobianProduct_full
            (λ _ _ _, Returned tt [[1; 2]; [3; 4]]%Z) [5; 6]%Z
            (mkGradTape tt [tt; tt] [0; 1]) false
            (mkVjpStore [0; 0]%Z [[0; 0]; [0; 0]]%Z 0) _ _ _);
    [discriminate | discriminate | reflexivity].
Defined.

Lemma vectorJacobianProductFunc_dangling_witness :
  vectorJacobianProductFunc_callable (λ _ _ _, Returned tt [[1; 1]]%Z) [0%Z]
    (mkGradTape tt [tt] [0; 1]) false false 0
  = Undefined.
Proof.
  refine (vectorJacobianProductFunc_dangling
            (λ _ _ _, Returned tt [[1; 1]]%Z) [0%Z]
            (mkGradTape tt [tt] [0; 1]) false 0 _ _);
    discriminate.
Defined.

Lemma MPOTNCuda_ctor_rejects_sorted_witness :
  ∃ message,
    message ∈ [tensors_wires_mismatch; bond_dim_too_small; sorted_wires_only]
    ∧ MPOTNCuda_ctor sample_abort [[1]; [1]; [1]]%Z [0; 1; 2] 2 (ret tt) tt
      = sample_abort unit unit message tt.
Proof.
  apply (MPOTNCuda_ctor_rejects_sorted sample_abort [[1]; [1]; [1]]%Z
           [0; 1; 2] 2 (ret tt) tt).
  repeat constructor.
Defined.

Example MPOTNCuda_ctor_samples :
  MPOTNCuda_ctor sample_abort [[1]; [1]]%Z [0; 1] 2 (ret tt) tt
  = Thrown (invalid_argument sorted_wires_only) tt
  ∧ MPOTNCuda_ctor sample_abort [[1]]%Z [4] 2 (ret tt) tt
    = Thrown (invalid_argument sorted_wires_only) tt
  ∧ MPOTNCuda_ctor sample_abort [[1]; [1]]%Z [1; 0] 2 (ret tt) tt
    = Returned tt tt.
Proof. repeat split. Qed.
